(** * markboost-seo: slug generation, SEO parsing and note indexing

    A shallow embedding of [src/core/utils/slugify.ts] and
    [src/llm/mdToSEO.ts], with the note indexer on top of them.

    JavaScript strings are sequences of UTF-16 code units; none of the
    regular expressions of the sources carries the [u] flag, so every
    character class below ranges over code units.  A string is therefore a
    [list N]. *)

From Stdlib Require Import NArith ZArith Lia Bool List Ascii String.
From stdpp Require Import base option list gmap.

Import ListNotations.

#[local] Open Scope list_scope.
#[local] Open Scope bool_scope.
#[local] Set Warnings "-clear-no-such-hyp".

(** ** JavaScript strings *)

Module Js.

Abbreviation jsstring := (list N).

(** An ASCII literal as a JavaScript string. *)
Definition lit (s : string) : jsstring :=
  List.map N_of_ascii (list_ascii_of_string s).

(** Truthiness of a string value: only the empty string is falsy. *)
Definition truthy (s : jsstring) : bool :=
  match s with [] => false | _ :: _ => true end.

(** Truthiness of a match result: [null] is falsy. *)
Definition is_Some_b {A} (o : option A) : bool :=
  match o with Some _ => true | None => false end.

(** Strict equality of two strings. *)
Fixpoint str_eqb (a b : jsstring) : bool :=
  match a, b with
  | [], [] => true
  | x :: a', y :: b' => (x =? y)%N && str_eqb a' b'
  | _, _ => false
  end.

(** WhiteSpace and LineTerminator code units: what [\s] matches and what
    [String.prototype.trim] removes. *)
Definition is_ws (c : N) : bool :=
  ((9 <=? c) && (c <=? 13) || (c =? 32) || (c =? 160) || (c =? 5760)
   || (8192 <=? c) && (c <=? 8202) || (c =? 8232) || (c =? 8233)
   || (c =? 8239) || (c =? 8287) || (c =? 12288) || (c =? 65279))%N.

Fixpoint drop_while (p : N -> bool) (s : jsstring) : jsstring :=
  match s with
  | [] => []
  | c :: r => if p c then drop_while p r else s
  end.

Definition drop_while_end (p : N -> bool) (s : jsstring) : jsstring :=
  rev (drop_while p (rev s)).

(** [s.trim()] *)
Definition trim (s : jsstring) : jsstring :=
  drop_while_end is_ws (drop_while is_ws s).

(** [s.startsWith(p)] and [s.endsWith(p)] *)
Fixpoint startsWith (s p : jsstring) {struct p} : bool :=
  match p, s with
  | [], _ => true
  | x :: p', y :: s' => (x =? y)%N && startsWith s' p'
  | _ :: _, [] => false
  end.

Definition endsWith (s p : jsstring) : bool :=
  startsWith (rev s) (rev p).

(** [s.substring(a, b)] for non-negative integer arguments: both are
    clamped to the length and swapped when [a > b]. *)
Definition substring (s : jsstring) (a b : nat) : jsstring :=
  let a' := Nat.min a (length s) in
  let b' := Nat.min b (length s) in
  let from := Nat.min a' b' in
  let to := Nat.max a' b' in
  firstn (to - from) (skipn from s).

(** [s.split(sep)] for a one-unit separator: the empty string splits
    into one empty piece. *)
Fixpoint split (sep : N) (s : jsstring) : list jsstring :=
  match s with
  | [] => [[]]
  | c :: r =>
      if (c =? sep)%N then [] :: split sep r
      else match split sep r with
           | seg :: segs => (c :: seg) :: segs
           | [] => [[c]]
           end
  end.

(** [parts.join(sep)] *)
Fixpoint join (sep : jsstring) (parts : list jsstring) : jsstring :=
  match parts with
  | [] => []
  | [p] => p
  | p :: rest => p ++ sep ++ join sep rest
  end.

(** [s.replace(/[p]+/g, rep)]: every maximal run of units satisfying [p]
    becomes one copy of [rep]. *)
Fixpoint replace_runs (p : N -> bool) (rep : jsstring) (s : jsstring)
  : jsstring :=
  match s with
  | [] => []
  | c :: r =>
      if p c then
        match r with
        | c' :: _ => if p c' then replace_runs p rep r
                     else rep ++ replace_runs p rep r
        | [] => rep
        end
      else c :: replace_runs p rep r
  end.

(** [s.split(/\s+/)]: the pieces between maximal whitespace runs; a run at
    either end leaves an empty piece there. *)
Fixpoint split_ws_go (inrun : bool) (cur : jsstring) (s : jsstring)
  : list jsstring :=
  match s with
  | [] => [rev cur]
  | c :: r =>
      if is_ws c then
        if inrun then split_ws_go true [] r
        else rev cur :: split_ws_go true [] r
      else split_ws_go false (c :: cur) r
  end.

Definition split_ws (s : jsstring) : list jsstring :=
  split_ws_go false [] s.

(** [arr.slice(0, e)] for an integer [e]: a negative end counts from the
    back. *)
Definition slice0 {A} (l : list A) (e : Z) : list A :=
  if (e <? 0)%Z then firstn (Z.to_nat (Z.of_nat (length l) + e)) l
  else firstn (Z.to_nat e) l.

(** ASCII case mapping of one code unit. *)
Definition lower_ascii (c : N) : N :=
  if ((65 <=? c) && (c <=? 90))%N then (c + 32)%N else c.

Definition upper_ascii (c : N) : N :=
  if ((97 <=? c) && (c <=? 122))%N then (c - 32)%N else c.

(** Units on which [toLowerCase] is fixed by the language standard
    without any table: ASCII and the (caseless) Hangul syllables. *)
Definition plain_unit (c : N) : bool :=
  ((c <? 128) || (44032 <=? c) && (c <=? 55203))%N.

(** [String.prototype.toLowerCase] is a builtin of the runtime, driven by
    the Unicode case tables.  It is taken as an interface; the only law
    used is its behaviour on strings of ASCII units and Hangul syllables,
    where it lowers [A]-[Z] and leaves everything else alone. *)
Class CaseMapping := {
  toLowerCase : jsstring -> jsstring;
  toLowerCase_plain :
    forall s, forallb plain_unit s = true ->
              toLowerCase s = List.map lower_ascii s
}.

(** The mapping that lowers ASCII letters only. *)
Definition ascii_case_mapping : CaseMapping :=
  {| toLowerCase := List.map lower_ascii;
     toLowerCase_plain := fun s _ => eq_refl |}.

End Js.

Import Js.

(** ** Slug generator ([src/core/utils/slugify.ts]) *)

Module Slug.

Definition slash : N := 47.
Definition backslash : N := 92.
Definition hyphen : N := 45.
Definition underscore : N := 95.

Definition is_hyphen (c : N) : bool := (c =? hyphen)%N.

(** [.replace(/\.md$/, empty)] *)
Definition strip_md (s : jsstring) : jsstring :=
  if endsWith s (lit ".md") then firstn (length s - 3) s else s.

(** [.replace(/\\/g, "/")] *)
Definition normalize_separators (s : jsstring) : jsstring :=
  List.map (fun c => if (c =? backslash)%N then slash else c) s.

(** [.replace(/\s+/g, "-")] *)
Definition hyphenate_whitespace (s : jsstring) : jsstring :=
  replace_runs is_ws [hyphen] s.

(** [.replace(/_/g, "-")] *)
Definition hyphenate_underscores (s : jsstring) : jsstring :=
  List.map (fun c => if (c =? underscore)%N then hyphen else c) s.

(** The class [[a-z0-9\uAC00-\uD7A3-]]. *)
Definition slug_unit (c : N) : bool :=
  ((97 <=? c) && (c <=? 122) || (48 <=? c) && (c <=? 57)
   || (44032 <=? c) && (c <=? 55203) || (c =? hyphen))%N.

(** [.replace(/[^a-z0-9\uAC00-\uD7A3-]+/g, empty)] *)
Definition delete_foreign (s : jsstring) : jsstring :=
  List.filter slug_unit s.

(** [.replace(/-+/g, "-")] *)
Definition collapse_hyphens (s : jsstring) : jsstring :=
  replace_runs is_hyphen [hyphen] s.

(** [.replace(/^-+|-+$/g, empty)] *)
Definition strip_hyphens (s : jsstring) : jsstring :=
  drop_while_end is_hyphen (drop_while is_hyphen s).

Section WithCaseMapping.
Context `{CaseMapping}.

(** The arrow function mapped over the segments. *)
Definition slug_segment (segment : jsstring) : jsstring :=
  strip_hyphens
    (collapse_hyphens
       (delete_foreign
          (hyphenate_underscores
             (hyphenate_whitespace
                (toLowerCase (trim segment)))))).

Definition filenameToSlug (nameOrPath : jsstring) : jsstring :=
  if negb (truthy nameOrPath) then []
  else
    let slug := normalize_separators (strip_md nameOrPath) in
    join [slash]
      (List.filter (fun segment => (0 <? length segment)%nat)
         (List.map slug_segment (split slash slug))).

(** A form halfway between the code and the specification's wording (for
    which see [SlugSpec] below): step 3 of section 4.1 reads "replace
    whitespace runs and underscores with a single hyphen", taken as one
    pass in which a maximal run of whitespace units and underscores becomes
    one hyphen, where the code makes two passes. *)
Definition spec_separator (c : N) : bool :=
  is_ws c || (c =? underscore)%N.

(** Both readings agree with sending every separator to a hyphen. *)
Definition hyphen_like (c : N) : N :=
  if spec_separator c then hyphen else c.

Definition spec_segment (segment : jsstring) : jsstring :=
  let lowered := toLowerCase (trim segment) in
  let hyphenated := replace_runs spec_separator [hyphen] lowered in
  let kept := List.filter slug_unit hyphenated in
  strip_hyphens (collapse_hyphens kept).

Definition spec_slugify (pathOrName : jsstring) : jsstring :=
  match pathOrName with
  | [] => []
  | _ :: _ =>
      let segments :=
        split slash (normalize_separators (strip_md pathOrName)) in
      join [slash]
        (List.filter (fun segment => negb (str_eqb segment []))
           (List.map spec_segment segments))
  end.

End WithCaseMapping.

(** Slug form: what a finished slug looks like.  A segment is non-empty,
    drawn from the slug alphabet, neither starts nor ends with a hyphen
    and has no two hyphens in a row; a slug is empty or a [/]-separated
    sequence of such segments. *)
Fixpoint no_double_hyphen (s : jsstring) : bool :=
  match s with
  | c :: r =>
      match r with
      | c' :: _ => negb (is_hyphen c && is_hyphen c') && no_double_hyphen r
      | [] => true
      end
  | [] => true
  end.

Definition starts_hyphen (s : jsstring) : bool :=
  match s with c :: _ => is_hyphen c | [] => false end.

Definition is_slug_segment (segment : jsstring) : bool :=
  truthy segment
  && forallb slug_unit segment
  && negb (startsWith segment [hyphen])
  && negb (endsWith segment [hyphen])
  && no_double_hyphen segment.

Definition is_slug (s : jsstring) : bool :=
  match s with
  | [] => true
  | _ :: _ => forallb is_slug_segment (split slash s)
  end.

End Slug.

Import Slug.

(** ** SEO generator ([src/llm/mdToSEO.ts]) *)

Module Seo.

(** [SEOData] of [src/types.ts]; an optional field is an [option]. *)
Record SEOData := mkSEOData {
  title : option jsstring;
  description : option jsstring;
  keywords : option (list jsstring)
}.

(** [LLMConfig]: the three properties [markdownToSEO] reads.  Word counts
    are integers. *)
Record LLMConfig := mkLLMConfig {
  modelName : option jsstring;
  minContentLengthForSeo : option Z;
  maxContentLengthForPrompt : option Z
}.

Definition DEFAULT_MODEL_FOR_TEXT_GENERATION : jsstring :=
  lit "Xenova/LaMini-Flan-T5-783M".

(** *** Language heuristic *)

Definition in_range (lo hi c : N) : bool := ((lo <=? c) && (c <=? hi))%N.

(** The array [nonEnglishScripts]: one character class per entry, with the
    bounds exactly as written in the source. *)
Definition nonEnglishScripts : list (N -> bool) :=
  [ (fun c => in_range 0x3131 0xD79D c || in_range 0xAC00 0xD7AF c);
    (fun c => in_range 0x3040 0x309F c || in_range 0x30A0 0x30FF c);
    in_range 0x4E00 0x9FFF;
    in_range 0x0400 0x04FF ].

(** [scriptRegex.test(text)] for a one-class regex: some unit is in the
    class. *)
Definition regex_test (cls : N -> bool) (text : jsstring) : bool :=
  existsb cls text.

(** The [for ... of] loop: the first class that hits returns [false]. *)
Fixpoint scan_scripts (scripts : list (N -> bool)) (text : jsstring) : bool :=
  match scripts with
  | [] => true
  | scriptRegex :: rest =>
      if regex_test scriptRegex text then false else scan_scripts rest text
  end.

Definition isLikelyEnglish (text : jsstring) : bool :=
  if negb (truthy text) then true else scan_scripts nonEnglishScripts text.

(** The union of the four classes, as three intervals. *)
Definition flagged_unit (c : N) : bool :=
  in_range 0x0400 0x04FF c || in_range 0x3040 0x30FF c
  || in_range 0x3131 0xD7AF c.

(** The scripts the heuristic is documented to look for, by their
    Unicode blocks: Hangul (Jamo, Compatibility Jamo, both Jamo
    extensions, Syllables and the half-width forms), Hiragana and Katakana
    (with the phonetic extensions), the CJK Unified Ideographs (with
    extension A) and Cyrillic (with its supplement and extensions).  This
    is the reading of the documentation, not of the code. *)
Definition hangul_unit (c : N) : bool :=
  in_range 0x1100 0x11FF c || in_range 0x3130 0x318F c
  || in_range 0xA960 0xA97F c || in_range 0xAC00 0xD7AF c
  || in_range 0xD7B0 0xD7FF c || in_range 0xFFA0 0xFFDC c.

Definition kana_unit (c : N) : bool :=
  in_range 0x3040 0x309F c || in_range 0x30A0 0x30FF c
  || in_range 0x31F0 0x31FF c.

Definition cjk_unified_unit (c : N) : bool :=
  in_range 0x4E00 0x9FFF c || in_range 0x3400 0x4DBF c.

Definition cyrillic_unit (c : N) : bool :=
  in_range 0x0400 0x04FF c || in_range 0x0500 0x052F c
  || in_range 0x1C80 0x1C8F c || in_range 0x2DE0 0x2DFF c
  || in_range 0xA640 0xA69F c.

Definition listed_script_unit (c : N) : bool :=
  hangul_unit c || kana_unit c || cjk_unified_unit c || cyrillic_unit c.

(** *** Prompt builder *)

Definition nl : jsstring := [10%N].
Definition dq : jsstring := [34%N].

Definition constructEnglishSEOPrompt (originalTitle contentExcerpt : jsstring)
  : jsstring :=
  trim
    (nl
     ++ lit "Based on the original title and content excerpt of the following blog post:" ++ nl
     ++ lit "Original Title: " ++ dq ++ originalTitle ++ dq ++ nl
     ++ lit "Content Excerpt: " ++ dq ++ contentExcerpt ++ dq ++ nl
     ++ nl
     ++ lit "Please generate an SEO-optimized title (around 50-70 characters) and a meta description (around 100-160 characters)." ++ nl
     ++ nl
     ++ lit "Respond in the following format, using these exact labels. Do not include any other conversation or explanations:" ++ nl
     ++ lit "SEO Title: [Your suggested SEO title here]" ++ nl
     ++ lit "Meta Description: [Your suggested meta description here]" ++ nl
     ++ nl
     ++ lit "If it's difficult to generate a better title, you can use or slightly modify the original title." ++ nl).

(** *** Response parser *)

(** Matching one unit under the [i] flag against an ASCII pattern unit:
    both are canonicalised by upper-casing, and a non-ASCII unit never
    canonicalises to an ASCII one. *)
Definition ci_eqb (c p : N) : bool := (upper_ascii c =? upper_ascii p)%N.

Fixpoint ci_prefix (pat s : jsstring) {struct pat} : bool :=
  match pat, s with
  | [], _ => true
  | p :: pat', c :: s' => ci_eqb c p && ci_prefix pat' s'
  | _ :: _, [] => false
  end.

(** Leftmost occurrence of a literal under the [i] flag: the text before
    it and the text after it. *)
Fixpoint find_ci (pat s : jsstring) : option (jsstring * jsstring) :=
  if ci_prefix pat s then Some ([], skipn (length pat) s)
  else match s with
       | [] => None
       | c :: r =>
           match find_ci pat r with
           | Some (before, after) => Some (c :: before, after)
           | None => None
           end
       end.

Definition title_label : jsstring := lit "SEO Title:".
Definition description_label : jsstring := lit "Meta Description:".

(** The first [match] of the parser: the title label, a lazy dot-star
    group, then either a newline with the description label or [$], flags
    [is].  Reduced to its capture group: at the leftmost label the lazy
    group (which, under [s], also crosses newlines) stops at the first place
    where a newline and the description label follow, and otherwise runs to
    the end; the match never fails once the label is there. *)
Definition match_title (text : jsstring) : option jsstring :=
  match find_ci title_label text with
  | None => None
  | Some (_, rest) =>
      Some (match find_ci (nl ++ description_label) rest with
            | Some (captured, _) => captured
            | None => rest
            end)
  end.

(** The second [match] of the parser: the description label, then a
    greedy dot-star group anchored at [$], flags [is].  Reduced to its
    capture group: everything after the leftmost label. *)
Definition match_description (text : jsstring) : option jsstring :=
  match find_ci description_label text with
  | None => None
  | Some (_, rest) => Some rest
  end.

(** The [replace] of the fallback branch (title label, lazy dot-star,
    then a newline or [$], flags [is], replaced by the empty string): the
    first label and what follows it up to and including the next newline
    are removed. *)
Definition remove_title_line (text : jsstring) : jsstring :=
  match find_ci title_label text with
  | None => text
  | Some (before, rest) =>
      before ++ match find_ci nl rest with
                | Some (_, after) => after
                | None => []
                end
  end.

(** The quote-stripping idiom that follows each assignment. *)
Definition unquote (s : jsstring) : jsstring :=
  if startsWith s dq && endsWith s dq then substring s 1 (length s - 1)
  else s.

(** [m && m[1] && m[1].trim()] *)
Definition captured (m : option jsstring) : bool :=
  match m with
  | Some group => truthy group && truthy (trim group)
  | None => false
  end.

Definition group1 (m : option jsstring) : jsstring :=
  match m with Some group => group | None => [] end.

Definition parseEnglishSEOResponse
    (responseText : option jsstring) (originalTitle : jsstring) : SEOData :=
  let unparsed :=
    {| title := Some originalTitle; description := None; keywords := None |} in
  match responseText with
  | None => unparsed
  | Some responseText =>
      if negb (truthy responseText) then unparsed
      else
        let titleMatch := match_title responseText in
        let seoTitle :=
          if captured titleMatch then unquote (trim (group1 titleMatch))
          else originalTitle in
        let descriptionMatch := match_description responseText in
        let seoDescription :=
          if captured descriptionMatch then
            Some (unquote (trim (group1 descriptionMatch)))
          else if negb (is_Some_b titleMatch) && truthy (trim responseText) then
            let cleanedResponse := trim (remove_title_line responseText) in
            if truthy cleanedResponse then
              if str_eqb seoTitle originalTitle then
                Some (unquote (substring cleanedResponse 0 160))
              else None
            else None
          else None in
        {| title := Some seoTitle;
           description := seoDescription;
           keywords := None |}
  end.

(** *** Orchestration *)

(** What a JavaScript computation ends in: a value or a thrown exception
    (for an [async] function: a fulfilled or a rejected promise). *)
Inductive exn := TypeError | Raised (reason : jsstring).

Inductive outcome (A : Type) :=
| Ret (a : A)
| Throw (e : exn).
Arguments Ret {A} a.
Arguments Throw {A} e.

Definition bind {A B} (m : outcome A) (k : A -> outcome B) : outcome B :=
  match m with
  | Ret a => k a
  | Throw e => Throw e
  end.

(** [try { body } catch (error) { handler }] *)
Definition try_catch {A} (body : outcome A) (handler : exn -> outcome A)
  : outcome A :=
  match body with
  | Ret a => Ret a
  | Throw e => handler e
  end.

#[global] Instance outcome_ret : MRet outcome := @Ret.
#[global] Instance outcome_bind : MBind outcome :=
  fun A B k m => bind m k.

(** The values the text-generation pipeline may hand back.  For an object
    only the property the code reads is kept; reading it may itself throw
    (an accessor). *)
#[warnings="-register-all"]
Inductive value :=
| VUndefined
| VNull
| VBool (b : bool)
| VNum (z : Z)
| VStr (s : jsstring)
| VObj (generated_text : outcome value)
| VArr (items : list value).

(** [(v as any).generated_text]: a [TypeError] on [undefined] and [null],
    [undefined] on a value without the property. *)
Definition get_generated_text (v : value) : outcome value :=
  match v with
  | VUndefined | VNull => Throw TypeError
  | VObj generated_text => generated_text
  | VBool _ | VNum _ | VStr _ | VArr _ => Ret VUndefined
  end.

(** [typeof v === "string"] *)
Definition is_string (v : value) : bool :=
  match v with VStr _ => true | _ => false end.

(** The assignment to [generatedText : string | undefined]. *)
Definition as_text (v : value) : option jsstring :=
  match v with VStr s => Some s | _ => None end.

(** The external collaborator: [pipeline(task, model)] resolves to a
    generator or rejects; the generator, called with the prompt and the two
    token bounds, resolves to a value or rejects. *)
Definition generator := jsstring -> Z -> Z -> outcome value.
Definition pipeline_fn := jsstring -> jsstring -> outcome generator.

(** A destructuring default [{ x = d } = config]: [d] is used only when
    the property is [undefined]. *)
Definition destructure {A} (property : option A) (d : A) : A :=
  match property with Some v => v | None => d end.

(** [v || d] on an optional string and on an optional number. *)
Definition or_string (v : option jsstring) (d : jsstring) : jsstring :=
  match v with
  | Some s => if truthy s then s else d
  | None => d
  end.

Definition or_number (v : option Z) (d : Z) : Z :=
  match v with
  | Some z => if (z =? 0)%Z then d else z
  | None => d
  end.

(** [content.split(/\s+/).filter(Boolean).length] *)
Definition wordCount (content : jsstring) : Z :=
  Z.of_nat (length (List.filter truthy (split_ws content))).

(** The two-armed [if] that fills [generatedText]. *)
Definition extract_text (outputs : value) : outcome (option jsstring) :=
  match outputs with
  | VArr items =>
      match items with
      | first :: _ =>
          probe ← get_generated_text first;
          if is_string probe then
            text ← get_generated_text first;
            Ret (as_text text)
          else Ret None
      | [] => Ret None
      end
  | _ =>
      probe ← get_generated_text outputs;
      if is_string probe then
        text ← get_generated_text outputs;
        Ret (as_text text)
      else Ret None
  end.

(** [content.split(/\s+/).slice(0, max).join(" ")] *)
Definition contentExcerpt (content : jsstring) (max : Z) : jsstring :=
  join [32%N] (slice0 (split_ws content) max).

(** The body of the [try] block of [markdownToSEO]. *)
Definition attempt (pipeline : pipeline_fn)
    (modelName originalTitle contentExcerpt : jsstring)
  : outcome (option SEOData) :=
  generator ← pipeline (lit "text2text-generation") modelName;
  let prompt := constructEnglishSEOPrompt originalTitle contentExcerpt in
  outputs ← generator prompt 15%Z 120%Z;
  generatedText ← extract_text outputs;
  match generatedText with
  | Some text =>
      if truthy text then
        Ret (Some (parseEnglishSEOResponse (Some text) originalTitle))
      else Ret None
  | None => Ret None
  end.

(** [markdownToSEO]; the two [console] calls only log and are left out. *)
Definition markdownToSEO (pipeline : pipeline_fn)
    (originalTitle content : jsstring) (config : LLMConfig)
  : outcome (option SEOData) :=
  if negb (isLikelyEnglish originalTitle) then Ret None
  else
    let modelName :=
      destructure (modelName config)
        (or_string (modelName config) DEFAULT_MODEL_FOR_TEXT_GENERATION) in
    let minContentLengthForSeo :=
      destructure (minContentLengthForSeo config)
        (or_number (minContentLengthForSeo config) 50) in
    let maxContentLengthForPrompt :=
      destructure (maxContentLengthForPrompt config)
        (or_number (maxContentLengthForPrompt config) 250) in
    if (wordCount content <? minContentLengthForSeo)%Z then Ret None
    else
      let contentExcerpt := contentExcerpt content maxContentLengthForPrompt in
      try_catch
        (attempt pipeline modelName originalTitle contentExcerpt)
        (fun error => Ret None).

(** The settings in force as the documentation describes them: the
    configured value, and the default when the property is omitted. *)
Definition configured_model (config : LLMConfig) : jsstring :=
  match modelName config with
  | Some name => name
  | None => DEFAULT_MODEL_FOR_TEXT_GENERATION
  end.

Definition configured_min (config : LLMConfig) : Z :=
  match minContentLengthForSeo config with Some n => n | None => 50%Z end.

Definition configured_max (config : LLMConfig) : Z :=
  match maxContentLengthForPrompt config with Some n => n | None => 250%Z end.

End Seo.

Import Seo.

(** ** Note indexer *)

Module Indexer.

(** [ProcessedNode] of [src/types.ts]. *)
Record ProcessedNode := mkNode {
  id : jsstring;
  title : jsstring;
  filePath : jsstring;
  fullPathSlug : jsstring;
  simpleSlug : jsstring;
  content : option jsstring;
  frontmatter : option (list (jsstring * jsstring));
  seo : option SEOData;
  lastModified : option Z
}.

(** [ScanOptions] of [src/types.ts], without the two properties that only
    the file walker reads ([contentPath], [ignorePatterns]). *)
Record ScanOptions := mkOptions {
  slugifyFn : option (jsstring -> bool -> jsstring);
  includeFrontmatter : bool;
  includeLastModified : bool;
  generateSeo : bool;
  llmConfig : LLMConfig
}.

(** [ScanResult] of [src/types.ts]. *)
Record ScanResult := mkResult {
  allNotes : list ProcessedNode;
  notesMapByFullPathSlug : gmap jsstring ProcessedNode;
  notesMapBySimpleSlug : gmap jsstring (gset jsstring)
}.

(** What the file walker yields for one document. *)
Record FileRecord := mkFile {
  relativePath : jsstring;
  rawContent : jsstring;
  modified : Z
}.

(** The front-matter library: body and key-value mapping, or a failure. *)
Definition matter_fn :=
  jsstring -> outcome (jsstring * list (jsstring * jsstring)).

Section WithCaseMapping.
Context `{CaseMapping}.

(** Modelled from the spec: the path component after the last separator
    (the source of [scanAndProcessNotes] is not part of the sources at
    hand). *)
Definition basename (path : jsstring) : jsstring :=
  List.last (split slash path) [].

(** Modelled from the spec: section 4.6, the per-file step of the note
    indexer, [src/core/scanAndProcessNotes.ts] being absent from the
    sources at hand.  The path is put in forward-slash form, the title is
    the file name without its extension, the two slugs come from the slug
    generator (or from the configured override), and an SEO record is
    attached only when generation is enabled and did not skip.  The spec
    names no option for attaching [content], which is left absent. *)
Definition processFile (pipeline : pipeline_fn) (matter : matter_fn)
    (options : ScanOptions) (file : FileRecord) : outcome ProcessedNode :=
  let filePath := normalize_separators (relativePath file) in
  let fileName := basename filePath in
  let title := strip_md fileName in
  let slugify :=
    match slugifyFn options with
    | Some custom => custom
    | None => fun text _ => filenameToSlug text
    end in
  let fullPathSlug := slugify filePath true in
  let simpleSlug := slugify fileName false in
  parsed ← matter (rawContent file);
  seo ← (if generateSeo options
         then markdownToSEO pipeline title (fst parsed) (llmConfig options)
         else Ret None);
  Ret {| id := fullPathSlug;
         title := title;
         filePath := filePath;
         fullPathSlug := fullPathSlug;
         simpleSlug := simpleSlug;
         content := None;
         frontmatter :=
           if includeFrontmatter options then Some (snd parsed) else None;
         seo := seo;
         lastModified :=
           if includeLastModified options then Some (modified file)
           else None |}.

(** Modelled from the spec: the files are processed one at a time, in the
    walker's order; a failure of a collaborator aborts the run. *)
Fixpoint processFiles (pipeline : pipeline_fn) (matter : matter_fn)
    (options : ScanOptions) (files : list FileRecord)
  : outcome (list ProcessedNode) :=
  match files with
  | [] => Ret []
  | file :: rest =>
      node ← processFile pipeline matter options file;
      nodes ← processFiles pipeline matter options rest;
      Ret (node :: nodes)
  end.

End WithCaseMapping.

(** Modelled from the spec: "inserting each node keyed by its
    fullPathSlug (later duplicate keys overwrite earlier ones)". *)
Definition indexByFullPathSlug (nodes : list ProcessedNode)
  : gmap jsstring ProcessedNode :=
  foldl (fun m node => <[fullPathSlug node := node]> m) ∅ nodes.

(** Modelled from the spec: "inserting each node's fullPathSlug into the
    set keyed by its simpleSlug, creating the set on first encounter". *)
Definition addSimpleSlug (m : gmap jsstring (gset jsstring))
    (node : ProcessedNode) : gmap jsstring (gset jsstring) :=
  match m !! simpleSlug node with
  | Some slugs => <[simpleSlug node := slugs ∪ {[fullPathSlug node]}]> m
  | None => <[simpleSlug node := {[fullPathSlug node]}]> m
  end.

Definition indexBySimpleSlug (nodes : list ProcessedNode)
  : gmap jsstring (gset jsstring) :=
  foldl addSimpleSlug ∅ nodes.

(** Modelled from the spec: the top-level scan operation, from the files
    the walker enumerated to the [ScanResult]. *)
Definition scanAndProcessNotes `{CaseMapping}
    (pipeline : pipeline_fn) (matter : matter_fn)
    (options : ScanOptions) (files : list FileRecord) : outcome ScanResult :=
  nodes ← processFiles pipeline matter options files;
  Ret {| allNotes := nodes;
         notesMapByFullPathSlug := indexByFullPathSlug nodes;
         notesMapBySimpleSlug := indexBySimpleSlug nodes |}.

(** The union of all value-sets of the simple-slug map. *)
Definition simpleSlugTargets (m : gmap jsstring (gset jsstring))
  : gset jsstring :=
  ⋃ (snd <$> map_to_list m).

End Indexer.

Import Indexer.

(** ** Concrete inputs used in the examples below *)

Module Examples.

(** The file name of the second example of the slug generator's
    documentation: six Hangul syllables in three words, then [.md]. *)
Definition hangul_file_name : jsstring :=
  [0xD55C; 0xAE00; 32; 0xD30C; 0xC77C; 32; 0xC774; 0xB984]%N ++ lit ".md".

Definition hangul_slug : jsstring :=
  [0xD55C; 0xAE00; 45; 0xD30C; 0xC77C; 45; 0xC774; 0xB984]%N.

(** A collaborator that loads and answers every prompt with one result
    carrying the given text, and one whose model fails to load. *)
Definition canned_pipeline (text : jsstring) : pipeline_fn :=
  fun _ _ => Ret (fun _ _ _ => Ret (VArr [VObj (Ret (VStr text))])).

Definition failing_pipeline : pipeline_fn :=
  fun _ _ => Throw (Raised (lit "model could not be loaded")).

Definition labelled_answer : jsstring :=
  lit "SEO Title: Foo" ++ nl ++ lit "Meta Description: Bar".

(** The second case of [src/llm/test-mdToSEO.ts] and its configuration. *)
Definition short_note : jsstring :=
  lit "This is a very short note. It should be skipped by the SEO generator.".

Definition quoted_answer : jsstring :=
  dq ++ lit "An answer without labels" ++ dq.


Definition description_only_answer : jsstring :=
  lit "Meta Description: Bar".

Definition no_minimum : LLMConfig :=
  {| modelName := None;
     minContentLengthForSeo := Some 0%Z;
     maxContentLengthForPrompt := None |}.

Definition no_settings : LLMConfig :=
  {| modelName := None;
     minContentLengthForSeo := None;
     maxContentLengthForPrompt := None |}.

Definition test_config : LLMConfig :=
  {| modelName := None;
     minContentLengthForSeo := Some 50%Z;
     maxContentLengthForPrompt := Some 300%Z |}.

(** Walker output for the indexer: a front-matter library that finds
    none, the default options, two files whose names differ only in a
    space against an underscore, and the collision scenario of the
    specification. *)
Definition plain_matter : matter_fn := fun raw => Ret (raw, []).

Definition default_options : ScanOptions :=
  {| slugifyFn := None;
     includeFrontmatter := false;
     includeLastModified := false;
     generateSeo := false;
     llmConfig := no_settings |}.

Definition lookalike_files : list FileRecord :=
  [ {| relativePath := lit "a b.md"; rawContent := []; modified := 0%Z |};
    {| relativePath := lit "a_b.md"; rawContent := []; modified := 0%Z |} ].

Definition collision_files : list FileRecord :=
  [ {| relativePath := lit "a/note.md"; rawContent := []; modified := 0%Z |};
    {| relativePath := lit "b/note.md"; rawContent := []; modified := 0%Z |} ].

Definition empty_result : ScanResult :=
  {| allNotes := []; notesMapByFullPathSlug := ∅; notesMapBySimpleSlug := ∅ |}.

(** The scan of a file list with the ASCII case mapping and no SEO. *)
Definition scanned (files : list FileRecord) : ScanResult :=
  match @scanAndProcessNotes ascii_case_mapping
          failing_pipeline plain_matter default_options files with
  | Ret result => result
  | Throw _ => empty_result
  end.

End Examples.

Import Examples.

(** ** Auxiliary notions for the laws of the second half *)

Module Laws.

(** The slug generator after the extension has been dealt with: the part
    of [filenameToSlug] from the separator normalisation on. *)
Definition slug_of_segments `{CaseMapping} (path : jsstring) : jsstring :=
  join [slash]
    (List.filter (fun segment => (0 <? length segment)%nat)
       (List.map slug_segment (split slash (normalize_separators path)))).

(** The words of a text, as [markdownToSEO] counts them:
    [content.split(/\s+/).filter(Boolean)]. *)
Definition words (content : jsstring) : list jsstring :=
  List.filter truthy (split_ws content).

(** The three fixed stretches of the prompt template around the two
    interpolations, once the outer newlines are gone. *)
Definition prompt_head : jsstring :=
  lit "Based on the original title and content excerpt of the following blog post:" ++ nl
  ++ lit "Original Title: " ++ dq.

Definition prompt_middle : jsstring :=
  dq ++ nl ++ lit "Content Excerpt: " ++ dq.

Definition prompt_tail : jsstring :=
  dq ++ nl
  ++ nl
  ++ lit "Please generate an SEO-optimized title (around 50-70 characters) and a meta description (around 100-160 characters)." ++ nl
  ++ nl
  ++ lit "Respond in the following format, using these exact labels. Do not include any other conversation or explanations:" ++ nl
  ++ lit "SEO Title: [Your suggested SEO title here]" ++ nl
  ++ lit "Meta Description: [Your suggested meta description here]" ++ nl
  ++ nl
  ++ lit "If it's difficult to generate a better title, you can use or slightly modify the original title.".

(** A search result found after skipping the stretch [a]. *)
Definition carry (a : jsstring) (found : option (jsstring * jsstring))
  : option (jsstring * jsstring) :=
  match found with
  | Some (before, after) => Some (a ++ before, after)
  | None => None
  end.

(** An answer in the format the prompt asks for. *)
Definition formatted_answer (seoTitle seoDescription : jsstring) : jsstring :=
  title_label ++ seoTitle ++ nl ++ description_label ++ seoDescription.

End Laws.

Import Laws.

(** ** The test script ([src/llm/test-mdToSEO.ts]) *)

Module TestScript.

Record TestCase := mkCase {
  case_title : jsstring;
  case_content : jsstring;
  expectedToProcess : bool
}.

(** The five status messages. *)
Inductive status :=
| ProcessedAsExpected
| SkippedAsExpected
| ExpectedSkipButProcessed
| ExpectedProcessButSkipped
| ExceptionDuringCall (e : exn).

(** [TestCaseOutput] *)
Record TestCaseOutput := mkOutput {
  originalTitle : jsstring;
  wasProcessedByLLM : bool;
  shouldHaveBeenProcessed : bool;
  statusMessage : status;
  seoData : option SEOData;
  error : option exn
}.

Definition korean_title : jsstring :=
  [0xB098; 0xC758; 32; 0xD55C; 0xAD6D; 0xC5B4; 32;
   0xD14C; 0xC2A4; 0xD2B8; 32; 0xD3EC; 0xC2A4; 0xD2B8]%N.

Definition testCases : list TestCase :=
  [ {| case_title := lit "My First Blog Post";
       case_content := lit "This is the content of my first blog post. I am testing the automatic SEO information generation feature. It needs enough words to pass the minimum content length. Let's add some more filler text to make sure it meets the criteria for processing. This should be well over 50 words or the configured threshold. We are discussing important topics like AI, SEO, and content creation. This should be sufficient content.";
       expectedToProcess := true |};
    {| case_title := lit "Short Note";
       case_content := lit "This is a very short note. It should be skipped by the SEO generator.";
       expectedToProcess := false |};
    {| case_title := lit "Another Post About AI and SEO";
       case_content := lit "Artificial intelligence is rapidly changing the world. This post explores the impact of AI on Search Engine Optimization (SEO) and how content creators can adapt. We will delve into techniques for leveraging AI tools to improve rankings and visibility. This content is specifically designed to be processed and yield some SEO data. Let's ensure it's long enough.";
       expectedToProcess := true |};
    {| case_title := lit "Exploring the Wonders of Nature";
       case_content := lit "Today, I went hiking in the national park. The scenery was breathtaking, with lush green forests, towering mountains, and crystal-clear rivers. I saw various wildlife, including deer, squirrels, and many species of birds. Nature has a way of rejuvenating the soul. This experience reminded me of the importance of conservation and protecting our planet for future generations. It was a truly memorable day.";
       expectedToProcess := true |};
    {| case_title := korean_title;
       case_content := lit "This is a test post with a Korean title to check if the LLM processing is skipped. The content itself is in English, but the title language check should prevent LLM invocation. We want to ensure that non-English posts are handled gracefully, perhaps by falling back to non-LLM based SEO generation or by simply skipping this step if only LLM generation for English is configured.";
       expectedToProcess := false |} ].

Definition defaultConfig : LLMConfig :=
  {| modelName := None;
     minContentLengthForSeo := Some 50%Z;
     maxContentLengthForPrompt := Some 300%Z |}.

(** The body of the [for] loop: the call inside [try], the two-way
    classification of its result, and the [catch] arm. *)
Definition runCase (pipeline : pipeline_fn) (testCase : TestCase)
  : TestCaseOutput :=
  match markdownToSEO pipeline (case_title testCase) (case_content testCase)
          defaultConfig with
  | Ret (Some generatedSeoData) =>
      {| originalTitle := case_title testCase;
         wasProcessedByLLM := true;
         shouldHaveBeenProcessed := expectedToProcess testCase;
         statusMessage :=
           if negb (expectedToProcess testCase) then ExpectedSkipButProcessed
           else ProcessedAsExpected;
         seoData := Some generatedSeoData;
         error := None |}
  | Ret None =>
      {| originalTitle := case_title testCase;
         wasProcessedByLLM := false;
         shouldHaveBeenProcessed := expectedToProcess testCase;
         statusMessage :=
           if expectedToProcess testCase then ExpectedProcessButSkipped
           else SkippedAsExpected;
         seoData := None;
         error := None |}
  | Throw e =>
      {| originalTitle := case_title testCase;
         wasProcessedByLLM := false;
         shouldHaveBeenProcessed := expectedToProcess testCase;
         statusMessage := ExceptionDuringCall e;
         seoData := None;
         error := Some e |}
  end.

(** [runTest]: the object [allTestResults], keyed by title and filled case
    by case; the logging is left out. *)
Definition runTest (pipeline : pipeline_fn) : gmap jsstring TestCaseOutput :=
  foldl (fun allTestResults testCase =>
           <[case_title testCase := runCase pipeline testCase]> allTestResults)
    ∅ testCases.

End TestScript.

Import TestScript.

(** ** Section 4.1 of the specification, step by step *)

(** The slug algorithm as the specification words it, written without any
    of the definitions of [Slug]: it is what [filenameToSlug] is compared
    with.  Only the runtime's [toLowerCase] is shared. *)
Module SlugSpec.

(** The code units that count as whitespace. *)
Definition whitespace_units : list N :=
  [9; 10; 11; 12; 13; 32; 160; 5760;
   8192; 8193; 8194; 8195; 8196; 8197; 8198; 8199; 8200; 8201; 8202;
   8232; 8233; 8239; 8287; 12288; 65279]%N.

Definition whitespace (c : N) : bool :=
  existsb (N.eqb c) whitespace_units.

(** Step 1: "strip a trailing Markdown extension": the last three units,
    when they are [.md]. *)
Definition strip_extension (s : jsstring) : jsstring :=
  match rev s with
  | d :: m :: dot :: stem =>
      if ((dot =? 46) && (m =? 109) && (d =? 100))%N then rev stem else s
  | _ => s
  end.

(** Step 1: "normalize any backslash path separators to forward
    slashes". *)
Definition forward_slashes (s : jsstring) : jsstring :=
  List.map (fun c => if (c =? 92)%N then 47%N else c) s.

(** Step 2: "split on [/] into segments". *)
Definition segments (s : jsstring) : list jsstring :=
  fold_right
    (fun c acc =>
       if (c =? 47)%N then [] :: acc
       else match acc with
            | segment :: rest => (c :: segment) :: rest
            | [] => [[c]]
            end)
    [[]] s.

(** How many units at the front satisfy a test, and a string without the
    units at its two ends that satisfy it. *)
Fixpoint leading (p : N -> bool) (s : jsstring) : nat :=
  match s with
  | c :: r => if p c then S (leading p r) else 0
  | [] => 0
  end.

Definition without_ends (p : N -> bool) (s : jsstring) : jsstring :=
  let rest := skipn (leading p s) s in
  firstn (length rest - leading p (rev rest)) rest.

(** Step 3: "trim surrounding whitespace". *)
Definition trimmed (s : jsstring) : jsstring := without_ends whitespace s.

(** One hyphen for each maximal run of units satisfying a test; [in_run]
    tells that the hyphen of the current run is already out. *)
Fixpoint squeeze (p : N -> bool) (in_run : bool) (s : jsstring) : jsstring :=
  match s with
  | [] => []
  | c :: r =>
      if p c then
        if in_run then squeeze p true r else 45%N :: squeeze p true r
      else c :: squeeze p false r
  end.

(** Step 3: "replace whitespace runs and underscores with a single
    hyphen". *)
Definition hyphenated (s : jsstring) : jsstring :=
  squeeze (fun c => whitespace c || (c =? 95)%N) false s.

(** Step 3: "delete every character that is not a lowercase Latin letter,
    a digit, a Hangul syllable (U+AC00 to U+D7A3), or a hyphen". *)
Definition allowed (c : N) : bool :=
  ((97 <=? c) && (c <=? 122) || (48 <=? c) && (c <=? 57)
   || (0xAC00 <=? c) && (c <=? 0xD7A3) || (c =? 45))%N.

Definition only_allowed (s : jsstring) : jsstring := List.filter allowed s.

(** Step 3: "collapse repeated hyphens". *)
Definition collapsed (s : jsstring) : jsstring :=
  squeeze (fun c => (c =? 45)%N) false s.

(** Step 3: "strip leading/trailing hyphens". *)
Definition stripped (s : jsstring) : jsstring :=
  without_ends (fun c => (c =? 45)%N) s.

Definition normalize_segment `{CaseMapping} (segment : jsstring) : jsstring :=
  stripped
    (collapsed (only_allowed (hyphenated (toLowerCase (trimmed segment))))).

(** Step 4: "rejoin surviving segments with [/]". *)
Definition rejoin (parts : list jsstring) : jsstring :=
  match parts with
  | [] => []
  | first :: rest => first ++ concat (List.map (fun part => 47%N :: part) rest)
  end.

(** Steps 1 to 5 together; "drop segments that become empty", and the
    empty input yields the empty slug. *)
Definition slugify `{CaseMapping} (pathOrName : jsstring) : jsstring :=
  match pathOrName with
  | [] => []
  | _ :: _ =>
      rejoin
        (List.filter (fun segment => negb (length segment =? 0)%nat)
           (List.map normalize_segment
              (segments (forward_slashes (strip_extension pathOrName)))))
  end.

End SlugSpec.

(** * Facts *)

(** ** The string primitives *)

Module JsFacts.

Lemma truthy_nonempty (s : jsstring) : truthy s = true <-> s <> [].
Proof. destruct s; simpl; split; congruence. Qed.

Lemma str_eqb_eq (a b : jsstring) : str_eqb a b = true <-> a = b.
Proof.
  revert b; induction a as [|x a IH]; intros [|y b]; simpl;
    try (split; congruence).
  rewrite andb_true_iff, N.eqb_eq, IH. split.
  - intros [-> ->]; reflexivity.
  - intros E; injection E; auto.
Qed.

Lemma str_eqb_refl (a : jsstring) : str_eqb a a = true.
Proof. apply str_eqb_eq; reflexivity. Qed.

(** [drop_while] removes a prefix whose units all satisfy the test. *)
Lemma drop_while_split p s :
  exists w, s = w ++ drop_while p s /\ forallb p w = true.
Proof.
  induction s as [|c r [w [E F]]]; simpl.
  - exists []; auto.
  - destruct (p c) eqn:Pc.
    + exists (c :: w); simpl; rewrite Pc, F; split; [congruence | reflexivity].
    + exists []; auto.
Qed.

Lemma drop_while_head p s :
  match drop_while p s with c :: _ => p c = false | [] => True end.
Proof.
  induction s as [|c r IH]; simpl; [exact I|].
  destruct (p c) eqn:Pc; [exact IH | exact Pc].
Qed.

Lemma drop_while_fixed p s :
  match s with c :: _ => p c = false | [] => True end ->
  drop_while p s = s.
Proof. destruct s as [|c r]; simpl; [auto | intros ->; reflexivity]. Qed.

Lemma drop_while_end_split p s :
  exists w, s = drop_while_end p s ++ w /\ forallb p w = true.
Proof.
  unfold drop_while_end.
  destruct (drop_while_split p (rev s)) as [w [E F]].
  exists (rev w); split.
  - rewrite <- rev_app_distr, <- E, rev_involutive; reflexivity.
  - rewrite forallb_forall in *. intros x Hx. apply F, in_rev, Hx.
Qed.

Lemma drop_while_end_fixed p s :
  match rev s with c :: _ => p c = false | [] => True end ->
  drop_while_end p s = s.
Proof.
  intros Hl. unfold drop_while_end.
  rewrite (drop_while_fixed _ _ Hl). apply rev_involutive.
Qed.

Lemma drop_while_end_last p s :
  match rev (drop_while_end p s) with c :: _ => p c = false | [] => True end.
Proof.
  unfold drop_while_end. rewrite rev_involutive. apply drop_while_head.
Qed.

Lemma startsWith_unit s c :
  startsWith s [c] = match s with x :: _ => (c =? x)%N | [] => false end.
Proof. destruct s; simpl; [reflexivity | apply andb_true_r]. Qed.

Lemma endsWith_unit s c :
  endsWith s [c] = match rev s with x :: _ => (c =? x)%N | [] => false end.
Proof. unfold endsWith; simpl. apply startsWith_unit. Qed.

(** Every unit of the searched-for suffix occurs in the string. *)
Lemma startsWith_incl s p :
  startsWith s p = true -> forall c, In c p -> In c s.
Proof.
  revert s; induction p as [|x p IH]; intros s Hs c Hc; [destruct Hc|].
  destruct s as [|y s]; simpl in Hs; [discriminate|].
  apply andb_true_iff in Hs as [Exy Hs]. apply N.eqb_eq in Exy. subst y.
  destruct Hc as [-> | Hc]; [left; reflexivity | right; eauto].
Qed.

Lemma endsWith_incl s p :
  endsWith s p = true -> forall c, In c p -> In c s.
Proof.
  unfold endsWith. intros Hs c Hc.
  apply in_rev. apply (startsWith_incl _ _ Hs). apply in_rev.
  rewrite rev_involutive. exact Hc.
Qed.

Lemma replace_runs_fixed p rep s :
  (forall c, In c s -> p c = false) -> replace_runs p rep s = s.
Proof.
  induction s as [|c r IH]; intros Hs; simpl; [reflexivity|].
  rewrite (Hs c (or_introl eq_refl)), IH; [reflexivity|].
  intros x Hx; apply Hs; right; exact Hx.
Qed.

Lemma replace_runs_forallb p q rep s :
  forallb q rep = true -> forallb q s = true ->
  forallb q (replace_runs p rep s) = true.
Proof.
  intros Hrep. induction s as [|c r IH]; simpl; [auto|].
  intros Hs. apply andb_true_iff in Hs as [Hc Hr].
  destruct (p c).
  - destruct r as [|c' r']; [exact Hrep|].
    destruct (p c'); [apply IH, Hr|].
    rewrite forallb_app, Hrep. simpl. apply IH, Hr.
  - simpl. rewrite Hc. apply IH, Hr.
Qed.

Lemma filter_fixed {A} (f : A -> bool) (l : list A) :
  forallb f l = true -> List.filter f l = l.
Proof.
  induction l as [|a l IH]; simpl; [reflexivity|].
  intros Hl. apply andb_true_iff in Hl as [-> Hl]. rewrite IH; auto.
Qed.

Lemma map_fixed {A} (f : A -> A) (l : list A) :
  (forall a, In a l -> f a = a) -> List.map f l = l.
Proof.
  induction l as [|a l IH]; simpl; [reflexivity|].
  intros Hl. rewrite Hl, IH; auto.
Qed.

(** *** [split] and [join] *)

Lemma split_nonempty sep s : split sep s <> [].
Proof.
  destruct s as [|c r]; simpl; [discriminate|].
  destruct (c =? sep)%N; [discriminate|].
  destruct (split sep r); discriminate.
Qed.

Lemma join_cons sep (p : jsstring) rest :
  rest <> [] -> join sep (p :: rest) = p ++ sep ++ join sep rest.
Proof. destruct rest; [congruence | reflexivity]. Qed.

Lemma join_push sep c (p : jsstring) rest :
  join sep ((c :: p) :: rest) = c :: join sep (p :: rest).
Proof. destruct rest; reflexivity. Qed.

Lemma join_split sep s : join [sep] (split sep s) = s.
Proof.
  induction s as [|c r IH]; simpl; [reflexivity|].
  destruct (c =? sep)%N eqn:E.
  - apply N.eqb_eq in E. subst c.
    rewrite join_cons by apply split_nonempty. simpl. rewrite IH. reflexivity.
  - destruct (split sep r) as [|seg segs] eqn:S.
    + exfalso. exact (split_nonempty _ _ S).
    + rewrite join_push, IH. reflexivity.
Qed.

Lemma split_without sep s :
  (forall c, In c s -> c <> sep) -> split sep s = [s].
Proof.
  induction s as [|c r IH]; intros Hs; simpl; [reflexivity|].
  destruct (c =? sep)%N eqn:E.
  - apply N.eqb_eq in E. exfalso. exact (Hs c (or_introl eq_refl) E).
  - rewrite IH; [reflexivity|]. intros x Hx; apply Hs; right; exact Hx.
Qed.

Lemma split_app sep a b :
  (forall c, In c a -> c <> sep) ->
  split sep (a ++ sep :: b) = a :: split sep b.
Proof.
  induction a as [|c r IH]; intros Ha; simpl.
  - rewrite N.eqb_refl. reflexivity.
  - destruct (c =? sep)%N eqn:E.
    + apply N.eqb_eq in E. exfalso. exact (Ha c (or_introl eq_refl) E).
    + rewrite IH; [reflexivity|]. intros x Hx; apply Ha; right; exact Hx.
Qed.

Lemma split_join sep (segs : list jsstring) :
  segs <> [] ->
  (forall seg, In seg segs -> forall c, In c seg -> c <> sep) ->
  split sep (join [sep] segs) = segs.
Proof.
  induction segs as [|seg rest IH]; intros Hne Hs; [congruence|].
  destruct rest as [|seg' rest'].
  - simpl. apply split_without. apply Hs. left; reflexivity.
  - rewrite join_cons by discriminate.
    change ([sep] ++ join [sep] (seg' :: rest'))
      with (sep :: join [sep] (seg' :: rest')).
    rewrite split_app by (apply Hs; left; reflexivity).
    rewrite IH; [reflexivity | discriminate |].
    intros s Hin. apply Hs. right; exact Hin.
Qed.

Lemma in_join sep (segs : list jsstring) c :
  In c (join sep segs) ->
  In c sep \/ exists seg, In seg segs /\ In c seg.
Proof.
  induction segs as [|seg rest IH]; [intros []|].
  destruct rest as [|seg' rest'].
  - simpl. intros Hc. right. exists seg. auto.
  - rewrite join_cons by discriminate. rewrite !in_app_iff.
    intros [Hc | [Hc | Hc]].
    + right. exists seg. split; [left; reflexivity | exact Hc].
    + left; exact Hc.
    + destruct (IH Hc) as [Hs | [s [Hin Hcs]]]; [left; exact Hs|].
      right. exists s. split; [right; exact Hin | exact Hcs].
Qed.

Lemma in_split sep s seg c :
  In seg (split sep s) -> In c seg -> In c s.
Proof.
  intros Hseg Hc. rewrite <- (join_split sep s).
  revert Hseg. generalize (split sep s). intros segs.
  induction segs as [|x rest IH]; [intros []|].
  intros [-> | Hin].
  - destruct rest; [exact Hc|].
    rewrite join_cons by discriminate. apply in_app_iff. left; exact Hc.
  - destruct rest as [|y rest']; [destruct Hin|].
    rewrite join_cons by discriminate. rewrite !in_app_iff.
    right; right. apply IH, Hin.
Qed.

End JsFacts.

(** ** The slug generator *)

Module SlugFacts.
Import JsFacts.

(** Turning boolean range tests into arithmetic, and back. *)
Ltac units_in :=
  repeat match goal with
  | H : (_ || _) = true |- _ =>
      apply orb_true_iff in H; destruct H as [H|H]
  | H : (_ && _) = true |- _ =>
      apply andb_true_iff in H; destruct H as [? H]
  | H : (_ <=? _)%N = true |- _ => apply N.leb_le in H
  | H : (_ <? _)%N = true |- _ => apply N.ltb_lt in H
  | H : (_ =? _)%N = true |- _ => apply N.eqb_eq in H
  end.

Ltac decide_units :=
  repeat match goal with
  | |- context [(?a <=? ?b)%N] =>
      first [ rewrite (proj2 (N.leb_le a b)) by lia
            | rewrite (proj2 (N.leb_gt a b)) by lia ]
  | |- context [(?a <? ?b)%N] =>
      first [ rewrite (proj2 (N.ltb_lt a b)) by lia
            | rewrite (proj2 (N.ltb_ge a b)) by lia ]
  | |- context [(?a =? ?b)%N] =>
      first [ rewrite (proj2 (N.eqb_eq a b)) by lia
            | rewrite (proj2 (N.eqb_neq a b)) by lia ]
  end.

Ltac unit_fact :=
  unfold slug_unit, is_ws, plain_unit, lower_ascii, is_hyphen, spec_separator,
    hyphen, underscore, slash, backslash in *;
  units_in; decide_units; try reflexivity; try lia.

Lemma slug_unit_not_ws c : slug_unit c = true -> is_ws c = false.
Proof. intros Hc. unit_fact. Qed.

Lemma slug_unit_plain c : slug_unit c = true -> plain_unit c = true.
Proof. intros Hc. unit_fact. Qed.

Lemma slug_unit_lower c : slug_unit c = true -> lower_ascii c = c.
Proof. intros Hc. unit_fact. Qed.

Lemma slug_unit_not_underscore c :
  slug_unit c = true -> (c =? underscore)%N = false.
Proof. intros Hc. unit_fact. Qed.

Lemma slug_unit_not_backslash c :
  slug_unit c = true -> (c =? backslash)%N = false.
Proof. intros Hc. unit_fact. Qed.

Lemma slug_unit_not_slash c : slug_unit c = true -> c <> slash.
Proof. intros Hc. unit_fact. Qed.

Lemma slug_unit_not_dot c : slug_unit c = true -> c <> 46%N.
Proof. intros Hc. unit_fact. Qed.

(** *** Hyphen runs *)

Lemma is_hyphen_eq c : is_hyphen c = true -> c = hyphen.
Proof. apply N.eqb_eq. Qed.

Lemma collapse_cons c s :
  collapse_hyphens (c :: s) =
  if is_hyphen c && starts_hyphen s then collapse_hyphens s
  else c :: collapse_hyphens s.
Proof.
  unfold collapse_hyphens. simpl.
  destruct (is_hyphen c) eqn:Hc; simpl; [|reflexivity].
  apply is_hyphen_eq in Hc. subst c.
  destruct s as [|c' r]; simpl; [reflexivity|].
  destruct (is_hyphen c'); reflexivity.
Qed.

Lemma starts_hyphen_collapse s :
  starts_hyphen (collapse_hyphens s) = starts_hyphen s.
Proof.
  induction s as [|c r IH]; [reflexivity|].
  rewrite collapse_cons.
  destruct (is_hyphen c) eqn:Hc, (starts_hyphen r) eqn:Hr; simpl;
    rewrite ?Hc, ?IH; reflexivity.
Qed.

Lemma collapse_cong c s t :
  collapse_hyphens s = collapse_hyphens t ->
  collapse_hyphens (c :: s) = collapse_hyphens (c :: t).
Proof.
  intros E. rewrite !collapse_cons, <- E.
  rewrite <- (starts_hyphen_collapse s), <- (starts_hyphen_collapse t), E.
  reflexivity.
Qed.

Lemma collapse_no_double s : no_double_hyphen (collapse_hyphens s) = true.
Proof.
  induction s as [|c r IH]; [reflexivity|].
  rewrite collapse_cons.
  destruct (is_hyphen c && starts_hyphen r) eqn:E; [exact IH|].
  pose proof (starts_hyphen_collapse r) as Hs.
  simpl. destruct (collapse_hyphens r) as [|c' r'] eqn:Er; [reflexivity|].
  simpl in Hs. rewrite Hs, E. simpl. exact IH.
Qed.

Lemma collapse_fixed s : no_double_hyphen s = true -> collapse_hyphens s = s.
Proof.
  induction s as [|c r IH]; [reflexivity|].
  intros Hs. rewrite collapse_cons.
  simpl in Hs. destruct r as [|c' r'].
  - simpl. rewrite andb_false_r. reflexivity.
  - apply andb_true_iff in Hs as [Hcc Hr].
    change (starts_hyphen (c' :: r')) with (is_hyphen c').
    apply negb_true_iff in Hcc. rewrite Hcc, IH; auto.
Qed.

Lemma no_double_app a b :
  no_double_hyphen (a ++ b) = true ->
  no_double_hyphen a = true /\ no_double_hyphen b = true.
Proof.
  induction a as [|c r IH]; intros Hab; [split; [reflexivity | exact Hab]|].
  destruct r as [|c' r'].
  - split; [reflexivity|]. simpl in Hab.
    destruct b; [reflexivity|]. apply andb_true_iff in Hab as [_ Hb]. exact Hb.
  - change (((c :: c' :: r') ++ b)) with (c :: c' :: (r' ++ b)) in Hab.
    simpl in Hab. apply andb_true_iff in Hab as [Hcc Hr].
    destruct (IH Hr) as [Ha Hb]. split; [|exact Hb].
    simpl. rewrite Hcc. exact Ha.
Qed.

(** *** Whatever survives a stripping pass is a slice of the input *)

Lemma strip_hyphens_split s :
  exists a b, s = a ++ strip_hyphens s ++ b.
Proof.
  unfold strip_hyphens.
  destruct (drop_while_split is_hyphen s) as [a [Ea _]].
  destruct (drop_while_end_split is_hyphen (drop_while is_hyphen s))
    as [b [Eb _]].
  exists a, b. rewrite <- Eb. exact Ea.
Qed.

Lemma trim_split s : exists a b, s = a ++ trim s ++ b.
Proof.
  unfold trim.
  destruct (drop_while_split is_ws s) as [a [Ea _]].
  destruct (drop_while_end_split is_ws (drop_while is_ws s)) as [b [Eb _]].
  exists a, b. rewrite <- Eb. exact Ea.
Qed.

Lemma in_trim s c : In c (trim s) -> In c s.
Proof.
  destruct (trim_split s) as [a [b E]]. intros Hc.
  rewrite E, !in_app_iff. auto.
Qed.

Lemma trim_fixed s : (forall c, In c s -> is_ws c = false) -> trim s = s.
Proof.
  intros Hs. unfold trim.
  rewrite (drop_while_fixed is_ws s).
  - apply drop_while_end_fixed.
    destruct (rev s) as [|c r] eqn:E; [exact I|].
    apply Hs, in_rev. rewrite E. left; reflexivity.
  - destruct s as [|c r]; [exact I|]. apply Hs. left; reflexivity.
Qed.

Lemma forallb_filter_self {A} (f : A -> bool) l :
  forallb f (List.filter f l) = true.
Proof.
  apply forallb_forall. intros x Hx. apply List.filter_In in Hx. tauto.
Qed.

Section WithCaseMapping.
Context `{CaseMapping}.

(** *** Segments *)

Lemma slug_segment_form seg :
  slug_segment seg <> [] -> is_slug_segment (slug_segment seg) = true.
Proof.
  unfold slug_segment.
  set (t := hyphenate_underscores
              (hyphenate_whitespace (toLowerCase (trim seg)))).
  set (k := collapse_hyphens (delete_foreign t)).
  intros Hne.
  assert (Hk : forallb slug_unit k = true).
  { apply replace_runs_forallb; [reflexivity|]. apply forallb_filter_self. }
  assert (Hd : no_double_hyphen k = true) by apply collapse_no_double.
  destruct (strip_hyphens_split k) as [a [b E]].
  unfold is_slug_segment. repeat (apply andb_true_iff; split).
  - apply truthy_nonempty. exact Hne.
  - rewrite E, !forallb_app in Hk.
    apply andb_true_iff in Hk as [_ Hk]. apply andb_true_iff in Hk as [Hk _].
    exact Hk.
  - apply negb_true_iff. rewrite startsWith_unit.
    unfold strip_hyphens in *.
    destruct (drop_while_end_split is_hyphen (drop_while is_hyphen k))
      as [w [Ew _]].
    pose proof (drop_while_head is_hyphen k) as Hh.
    rewrite Ew in Hh.
    destruct (drop_while_end is_hyphen (drop_while is_hyphen k)) as [|x o];
      [reflexivity|].
    simpl in Hh. unfold is_hyphen in Hh. rewrite N.eqb_sym. exact Hh.
  - apply negb_true_iff. rewrite endsWith_unit.
    unfold strip_hyphens.
    pose proof (drop_while_end_last is_hyphen (drop_while is_hyphen k)) as Hl.
    destruct (rev (drop_while_end is_hyphen (drop_while is_hyphen k)))
      as [|x o]; [reflexivity|].
    unfold is_hyphen in Hl. rewrite N.eqb_sym. exact Hl.
  - rewrite E in Hd. apply no_double_app in Hd as [_ Hd].
    apply no_double_app in Hd as [Hd _]. exact Hd.
Qed.

Lemma slug_segment_fixed seg :
  is_slug_segment seg = true -> slug_segment seg = seg.
Proof.
  unfold is_slug_segment. intros Hs.
  apply andb_true_iff in Hs as [Hs Hdouble].
  apply andb_true_iff in Hs as [Hs Hend].
  apply andb_true_iff in Hs as [Hs Hstart].
  apply andb_true_iff in Hs as [_ Hunits].
  assert (Hall : forall c, In c seg -> slug_unit c = true)
    by (apply forallb_forall; exact Hunits).
  unfold slug_segment.
  rewrite trim_fixed by (intros c Hc; apply slug_unit_not_ws, Hall, Hc).
  rewrite toLowerCase_plain.
  2:{ apply forallb_forall. intros c Hc. apply slug_unit_plain, Hall, Hc. }
  rewrite (map_fixed lower_ascii)
    by (intros c Hc; apply slug_unit_lower, Hall, Hc).
  unfold hyphenate_whitespace.
  rewrite replace_runs_fixed
    by (intros c Hc; apply slug_unit_not_ws, Hall, Hc).
  unfold hyphenate_underscores.
  rewrite map_fixed.
  2:{ intros c Hc. rewrite slug_unit_not_underscore; auto. }
  unfold delete_foreign. rewrite filter_fixed by exact Hunits.
  rewrite collapse_fixed by exact Hdouble.
  unfold strip_hyphens.
  apply negb_true_iff in Hstart, Hend.
  rewrite startsWith_unit in Hstart. rewrite endsWith_unit in Hend.
  rewrite (drop_while_fixed is_hyphen seg).
  - apply drop_while_end_fixed.
    destruct (rev seg); [exact I|].
    unfold is_hyphen. rewrite N.eqb_sym. exact Hend.
  - destruct seg; [exact I|].
    unfold is_hyphen. rewrite N.eqb_sym. exact Hstart.
Qed.


(** *** Whole slugs *)

Lemma filenameToSlug_is_slug x : is_slug (filenameToSlug x) = true.
Proof.
  unfold filenameToSlug.
  destruct (negb (truthy x)); [reflexivity|].
  set (segs := List.filter _ _).
  assert (Hsegs : forall seg, In seg segs -> is_slug_segment seg = true).
  { intros seg Hseg. apply List.filter_In in Hseg as [Hin Hlen].
    apply in_map_iff in Hin as [y [<- _]].
    apply slug_segment_form. intros E. rewrite E in Hlen. discriminate. }
  destruct segs as [|seg rest] eqn:E; [reflexivity|].
  assert (Hsplit : split slash (join [slash] (seg :: rest)) = seg :: rest).
  { apply split_join; [discriminate|].
    intros s Hs c Hc. apply slug_unit_not_slash.
    specialize (Hsegs s Hs). unfold is_slug_segment in Hsegs.
    repeat (apply andb_true_iff in Hsegs as [Hsegs ?]).
    eapply forallb_forall; eauto. }
  unfold is_slug. destruct (join [slash] (seg :: rest)); [reflexivity|].
  rewrite Hsplit. apply forallb_forall. exact Hsegs.
Qed.

Lemma filenameToSlug_fixed x : is_slug x = true -> filenameToSlug x = x.
Proof.
  intros Hx. unfold filenameToSlug.
  destruct x as [|c0 r0]; [reflexivity|].
  remember (c0 :: r0) as x eqn:Ex.
  assert (Hsegs : forall seg, In seg (split slash x) ->
                              is_slug_segment seg = true).
  { apply forallb_forall. rewrite Ex in *. exact Hx. }
  assert (Hunits : forall c, In c x -> c = slash \/ slug_unit c = true).
  { intros c Hc. rewrite <- (join_split slash x) in Hc.
    apply in_join in Hc as [[<- | []] | [seg [Hseg Hc]]]; [left; reflexivity|].
    right. specialize (Hsegs seg Hseg). unfold is_slug_segment in Hsegs.
    repeat (apply andb_true_iff in Hsegs as [Hsegs ?]).
    eapply forallb_forall; eauto. }
  replace (negb (truthy x)) with false by (rewrite Ex; reflexivity).
  assert (Hmd : strip_md x = x).
  { unfold strip_md. destruct (endsWith x (lit ".md")) eqn:E; [|reflexivity].
    exfalso.
    destruct (Hunits 46%N) as [Hd | Hd].
    - apply (endsWith_incl _ _ E). left; reflexivity.
    - discriminate Hd.
    - discriminate Hd. }
  rewrite Hmd.
  assert (Hsep : normalize_separators x = x).
  { apply map_fixed. intros c Hc.
    destruct (Hunits c Hc) as [-> | Hu]; [reflexivity|].
    rewrite slug_unit_not_backslash; auto. }
  rewrite Hsep.
  rewrite map_fixed by (intros seg Hseg; apply slug_segment_fixed; auto).
  rewrite filter_fixed; [apply join_split|].
  apply forallb_forall. intros seg Hseg.
  specialize (Hsegs seg Hseg). unfold is_slug_segment in Hsegs.
  repeat (apply andb_true_iff in Hsegs as [Hsegs ?]).
  destruct seg; [discriminate | reflexivity].
Qed.

(** *** The two readings of the hyphenation step *)

Lemma hyphenation_normal (p : N -> bool) (g : N -> N) s :
  (forall c, p c = true -> hyphen_like c = hyphen) ->
  (forall c, p c = false -> g c = hyphen_like c) ->
  g hyphen = hyphen ->
  collapse_hyphens
    (List.filter slug_unit (List.map g (replace_runs p [hyphen] s)))
  = collapse_hyphens (List.filter slug_unit (List.map hyphen_like s)).
Proof.
  intros Hp Hg Hh.
  induction s as [|c r IH]; [reflexivity|].
  simpl replace_runs. simpl (List.map hyphen_like _).
  destruct (p c) eqn:Pc.
  - rewrite (Hp c Pc).
    change (List.filter slug_unit (hyphen :: ?l))
      with (hyphen :: List.filter slug_unit l).
    destruct r as [|c' r'].
    + simpl. rewrite Hh. reflexivity.
    + destruct (p c') eqn:Pc'.
      * rewrite IH. simpl (List.map hyphen_like _). rewrite (Hp c' Pc').
        change (List.filter slug_unit (hyphen :: ?l))
          with (hyphen :: List.filter slug_unit l).
        rewrite (collapse_cons hyphen (hyphen :: _)). reflexivity.
      * change ([hyphen] ++ ?l) with (hyphen :: l).
        simpl (List.map g (hyphen :: _)). rewrite Hh.
        change (List.filter slug_unit (hyphen :: ?l))
          with (hyphen :: List.filter slug_unit l).
        apply collapse_cong. exact IH.
  - simpl (List.map g (c :: _)). rewrite (Hg c Pc).
    simpl List.filter. destruct (slug_unit (hyphen_like c)); [|exact IH].
    apply collapse_cong. exact IH.
Qed.

Lemma spec_segment_agrees seg : spec_segment seg = slug_segment seg.
Proof.
  unfold spec_segment, slug_segment, delete_foreign,
    hyphenate_underscores, hyphenate_whitespace.
  f_equal.
  rewrite (hyphenation_normal is_ws).
  - rewrite <- (hyphenation_normal spec_separator (fun c => c)).
    + rewrite List.map_id. reflexivity.
    + intros c Hc. unfold hyphen_like. rewrite Hc. reflexivity.
    + intros c Hc. unfold hyphen_like. rewrite Hc. reflexivity.
    + reflexivity.
  - intros c Hc. unfold hyphen_like, spec_separator. rewrite Hc. reflexivity.
  - intros c Hc. unfold hyphen_like, spec_separator. rewrite Hc. reflexivity.
  - reflexivity.
Qed.

Lemma spec_slugify_agrees x : spec_slugify x = filenameToSlug x.
Proof.
  unfold spec_slugify, filenameToSlug.
  destruct x as [|c r]; [reflexivity|].
  simpl negb. cbv iota. f_equal.
  rewrite (List.map_ext _ _ spec_segment_agrees).
  apply List.filter_ext. intros [|? ?]; reflexivity.
Qed.

(** *** Inputs on which the case tables play no part *)

Lemma filenameToSlug_plain x :
  forallb plain_unit x = true ->
  filenameToSlug x = @filenameToSlug ascii_case_mapping x.
Proof.
  intros Hx. unfold filenameToSlug.
  destruct (negb (truthy x)); [reflexivity|].
  f_equal. f_equal. apply List.map_ext_in. intros seg Hseg.
  unfold slug_segment. rewrite toLowerCase_plain; [reflexivity|].
  apply forallb_forall. intros c Hc.
  apply in_trim in Hc. apply (in_split _ _ _ _ Hseg) in Hc.
  unfold normalize_separators in Hc. apply in_map_iff in Hc as [d [<- Hd]].
  destruct (d =? backslash)%N; [reflexivity|].
  assert (In d x) as Hin.
  { unfold strip_md in Hd. destruct (endsWith x (lit ".md")); [|exact Hd].
    rewrite <- (firstn_skipn (length x - 3) x). apply in_app_iff.
    left; exact Hd. }
  revert Hin. apply forallb_forall. exact Hx.
Qed.

(** The examples of the function's documentation comment.  The first
    three evaluate as documented.  In the fourth the trailing blanks keep
    [.md] from being an end-of-input match, so its letters stay; in the
    fifth the deleted punctuation leaves no hyphen behind. *)
Example slug_of_awesome_post :
  filenameToSlug (lit "My Awesome Post.md") = lit "my-awesome-post".
Proof. rewrite filenameToSlug_plain; reflexivity. Qed.

Example slug_of_padded_name :
  filenameToSlug (lit "  leading-trailing-hyphens--with--multiple.md  ")
  = lit "leading-trailing-hyphens-with-multiplemd".
Proof. rewrite filenameToSlug_plain; reflexivity. Qed.

Example slug_of_special_chars :
  filenameToSlug (lit "!@#Special$%^&*Chars(123).md") = lit "specialchars123".
Proof. rewrite filenameToSlug_plain; reflexivity. Qed.

Example slug_of_empty : filenameToSlug [] = [].
Proof. reflexivity. Qed.

End WithCaseMapping.

(** *** Agreement with the specification's wording

    Each step of [SlugSpec] against the corresponding step of the code. *)

Lemma whitespace_agrees c : SlugSpec.whitespace c = is_ws c.
Proof.
  destruct (is_ws c) eqn:E.
  - unfold is_ws in E. units_in; try (subst; reflexivity).
    + assert (c = 9 \/ c = 10 \/ c = 11 \/ c = 12 \/ c = 13)%N as Hc by lia.
      repeat (destruct Hc as [-> | Hc]; [reflexivity|]). subst; reflexivity.
    + assert (c = 8192 \/ c = 8193 \/ c = 8194 \/ c = 8195 \/ c = 8196
              \/ c = 8197 \/ c = 8198 \/ c = 8199 \/ c = 8200 \/ c = 8201
              \/ c = 8202)%N as Hc by lia.
      repeat (destruct Hc as [-> | Hc]; [reflexivity|]). subst; reflexivity.
  - destruct (SlugSpec.whitespace c) eqn:W; [|reflexivity].
    apply existsb_exists in W as [k [Hk Ek]]. apply N.eqb_eq in Ek. subst k.
    unfold SlugSpec.whitespace_units in Hk. simpl in Hk.
    repeat (destruct Hk as [<- | Hk]; [vm_compute in E; discriminate|]).
    destruct Hk.
Qed.

Lemma strip_extension_agrees s : SlugSpec.strip_extension s = strip_md s.
Proof.
  unfold SlugSpec.strip_extension, strip_md, endsWith.
  change (rev (lit ".md")) with [100%N; 109%N; 46%N].
  assert (Hcons : forall y x (u v : jsstring),
             startsWith (y :: u) (x :: v) = (x =? y)%N && startsWith u v)
    by reflexivity.
  destruct (rev s) as [|d [|m [|dot stem]]] eqn:E.
  - reflexivity.
  - rewrite Hcons. change (startsWith [] [109%N; 46%N]) with false.
    rewrite andb_false_r. reflexivity.
  - rewrite !Hcons. change (startsWith [] [46%N]) with false.
    rewrite !andb_false_r. reflexivity.
  - rewrite !Hcons. change (startsWith stem []) with true.
    rewrite andb_true_r.
    rewrite (N.eqb_sym 100 d), (N.eqb_sym 109 m), (N.eqb_sym 46 dot).
    destruct (dot =? 46)%N, (m =? 109)%N, (d =? 100)%N; try reflexivity.
    cbv [andb].
    assert (Hs : s = rev stem ++ [dot; m; d]).
    { rewrite <- (rev_involutive s), E. simpl.
      rewrite <- !app_assoc. reflexivity. }
    rewrite Hs at 1 2. rewrite length_app. simpl length.
    replace (length (rev stem) + 3 - 3) with (length (rev stem) + 0) by lia.
    rewrite firstn_app_2. simpl. rewrite app_nil_r. reflexivity.
Qed.

Lemma segments_agrees s : SlugSpec.segments s = split slash s.
Proof.
  induction s as [|c r IH]; [reflexivity|].
  change (SlugSpec.segments (c :: r))
    with (if (c =? 47)%N then [] :: SlugSpec.segments r
          else match SlugSpec.segments r with
               | segment :: rest => (c :: segment) :: rest
               | [] => [[c]]
               end).
  rewrite IH. reflexivity.
Qed.

Lemma leading_skipn p s : skipn (SlugSpec.leading p s) s = drop_while p s.
Proof.
  induction s as [|c r IH]; [reflexivity|].
  simpl. destruct (p c); [exact IH | reflexivity].
Qed.

Lemma without_ends_agrees p s :
  SlugSpec.without_ends p s = drop_while_end p (drop_while p s).
Proof.
  unfold SlugSpec.without_ends, drop_while_end.
  rewrite leading_skipn. set (rest := drop_while p s).
  rewrite <- leading_skipn, skipn_rev, rev_involutive. reflexivity.
Qed.

Lemma drop_while_ext p q s :
  (forall c, p c = q c) -> drop_while p s = drop_while q s.
Proof.
  intros Hpq. induction s as [|c r IH]; [reflexivity|].
  simpl. rewrite Hpq, IH. reflexivity.
Qed.

Lemma trimmed_agrees s : SlugSpec.trimmed s = trim s.
Proof.
  unfold SlugSpec.trimmed, trim, drop_while_end.
  rewrite without_ends_agrees. unfold drop_while_end.
  rewrite !(drop_while_ext SlugSpec.whitespace is_ws)
    by apply whitespace_agrees.
  reflexivity.
Qed.

Lemma stripped_agrees s : SlugSpec.stripped s = strip_hyphens s.
Proof. apply without_ends_agrees. Qed.

Lemma replace_runs_head p s :
  match s with c :: _ => p c = true | [] => False end ->
  exists t, replace_runs p [hyphen] s = hyphen :: t.
Proof.
  induction s as [|c r IH]; [intros []|].
  intros Hc. simpl. rewrite Hc.
  destruct r as [|c' r']; [eexists; reflexivity|].
  destruct (p c') eqn:Hc'; [apply IH; reflexivity | eexists; reflexivity].
Qed.

Lemma squeeze_agrees p s :
  SlugSpec.squeeze p false s = replace_runs p [hyphen] s
  /\ SlugSpec.squeeze p true s
     = if match s with c :: _ => p c | [] => false end
       then List.tl (replace_runs p [hyphen] s)
       else replace_runs p [hyphen] s.
Proof.
  induction s as [|c r [IHf IHt]]; [split; reflexivity|].
  simpl SlugSpec.squeeze. simpl replace_runs.
  destruct (p c) eqn:Hc.
  - destruct r as [|c' r']; [split; reflexivity|].
    destruct (p c') eqn:Hc'.
    + destruct (replace_runs_head p (c' :: r') Hc') as [t Ht].
      rewrite IHt, Ht. split; reflexivity.
    + rewrite IHt. split; reflexivity.
  - rewrite IHf. split; reflexivity.
Qed.

Lemma replace_runs_ext p q rep s :
  (forall c, p c = q c) -> replace_runs p rep s = replace_runs q rep s.
Proof.
  intros Hpq. induction s as [|c r IH]; [reflexivity|].
  simpl. rewrite Hpq, IH. destruct r as [|c' r']; [reflexivity|].
  rewrite Hpq. reflexivity.
Qed.

Lemma rejoin_agrees (parts : list jsstring) :
  SlugSpec.rejoin parts = join [slash] parts.
Proof.
  destruct parts as [|first rest]; [reflexivity|].
  unfold SlugSpec.rejoin. revert first.
  induction rest as [|part rest IH]; intros first.
  - simpl. apply app_nil_r.
  - rewrite join_cons by discriminate. simpl concat.
    change ((47%N :: part) ++ ?l) with ([slash] ++ part ++ l).
    rewrite (IH part). reflexivity.
Qed.

Lemma normalize_segment_agrees `{CaseMapping} seg :
  SlugSpec.normalize_segment seg = slug_segment seg.
Proof.
  rewrite <- spec_segment_agrees.
  unfold SlugSpec.normalize_segment, spec_segment.
  rewrite stripped_agrees, trimmed_agrees.
  unfold SlugSpec.collapsed, SlugSpec.only_allowed, SlugSpec.hyphenated.
  rewrite !(proj1 (squeeze_agrees _ _)).
  rewrite (replace_runs_ext
             (fun c => SlugSpec.whitespace c || (c =? 95)%N) spec_separator).
  - reflexivity.
  - intros c. unfold spec_separator. rewrite whitespace_agrees. reflexivity.
Qed.

Lemma slugify_agrees `{CaseMapping} x : SlugSpec.slugify x = filenameToSlug x.
Proof.
  unfold SlugSpec.slugify, filenameToSlug.
  destruct x as [|c r]; [reflexivity|].
  simpl negb. cbv iota.
  rewrite rejoin_agrees, strip_extension_agrees, segments_agrees.
  f_equal.
  rewrite (List.map_ext _ _ normalize_segment_agrees).
  apply List.filter_ext. intros [|? ?]; reflexivity.
Qed.

(** C8: the slug generator carries out the normalisation of section 4.1 of
    the specification.  On every input it returns what [SlugSpec.slugify]
    returns, the algorithm written after the specification's wording alone
    (strip the extension, unify the separators, split, and per segment
    trim, lowercase, turn whitespace runs and underscores into a hyphen,
    delete every unit outside [a-z], [0-9], the Hangul syllables and the
    hyphen, collapse and strip hyphens, drop empty segments).  The two
    documented examples evaluate as stated, and so do four inputs that
    exercise the stripping of hyphens, the trimming, the deletion and the
    dropping of empty segments. *)
Theorem filenameToSlug_meets_spec `{CaseMapping} :
  (forall x, filenameToSlug x = SlugSpec.slugify x)
  /\ filenameToSlug (lit "My Folder/Another_Post with_Spaces.md")
     = lit "my-folder/another-post-with-spaces"
  /\ filenameToSlug hangul_file_name = hangul_slug
  /\ filenameToSlug (lit "--Hello--/-b-.md") = lit "hello/b"
  /\ filenameToSlug (lit "  Trim Me  / x .md") = lit "trim-me/x"
  /\ filenameToSlug (lit "!@#Special$%^&*Chars(123).md")
     = lit "specialchars123"
  /\ filenameToSlug (lit "a//b/---/!!/c.md") = lit "a/b/c".
Proof.
  split; [intros x; symmetry; apply slugify_agrees|].
  repeat split; (rewrite filenameToSlug_plain; [|reflexivity]); reflexivity.
Qed.

(** The Hangul example with the ASCII case mapping. *)
Lemma filenameToSlug_meets_spec_witness :
  @filenameToSlug ascii_case_mapping hangul_file_name = hangul_slug.
Proof.
  apply (proj1 (proj2 (proj2 (@filenameToSlug_meets_spec ascii_case_mapping)))).
Defined.

(** C9: the slug generator is idempotent.  Every output is in slug form,
    applying the generator to an output gives the output back, and every
    input already in slug form is returned unchanged. *)
Theorem filenameToSlug_idempotent `{CaseMapping} (x : jsstring) :
  is_slug (filenameToSlug x) = true
  /\ filenameToSlug (filenameToSlug x) = filenameToSlug x
  /\ (is_slug x = true -> filenameToSlug x = x).
Proof.
  split; [apply filenameToSlug_is_slug|].
  split; [apply filenameToSlug_fixed, filenameToSlug_is_slug|].
  apply filenameToSlug_fixed.
Qed.

(** The same on a concrete path, with the ASCII case mapping. *)
Lemma filenameToSlug_idempotent_witness :
  @filenameToSlug ascii_case_mapping
    (@filenameToSlug ascii_case_mapping
       (lit "My Folder/Another_Post with_Spaces.md"))
  = lit "my-folder/another-post-with-spaces"
  /\ @filenameToSlug ascii_case_mapping (lit "my-folder/a-b") = lit "my-folder/a-b".
Proof.
  split.
  - rewrite (proj1 (proj2 (@filenameToSlug_idempotent ascii_case_mapping _))).
    reflexivity.
  - apply (proj2 (proj2 (@filenameToSlug_idempotent ascii_case_mapping _))).
    reflexivity.
Defined.

End SlugFacts.

(** ** The SEO generator *)

Module SeoFacts.
Import JsFacts.

(** *** Language heuristic *)

Lemma isLikelyEnglish_empty : isLikelyEnglish [] = true.
Proof. reflexivity. Qed.

Lemma scan_scripts_false scripts text :
  scan_scripts scripts text = false <->
  exists cls c, In cls scripts /\ In c text /\ cls c = true.
Proof.
  induction scripts as [|cls rest IH]; simpl.
  - split; [discriminate | intros [? [? [[] _]]]].
  - unfold regex_test. destruct (existsb cls text) eqn:E.
    + split; [intros _ | reflexivity].
      apply existsb_exists in E as [c [Hc Hr]]. exists cls, c. auto.
    + rewrite IH. split.
      * intros [k [c [Hk Hc]]]. exists k, c. tauto.
      * intros [k [c [[<- | Hk] [Hc Hr]]]]; [|exists k, c; tauto].
        exfalso. assert (existsb cls text = true) as X
          by (apply existsb_exists; eauto).
        congruence.
Qed.

Ltac ranges :=
  unfold flagged_unit, in_range in *;
  rewrite ?orb_true_iff, ?andb_true_iff, ?N.leb_le in *.

(** The four classes of the code flag exactly three intervals. *)
Lemma nonEnglishScripts_flag c :
  (exists cls, In cls nonEnglishScripts /\ cls c = true) <->
  flagged_unit c = true.
Proof.
  split.
  - intros [cls [Hin Hc]]. unfold nonEnglishScripts in Hin. simpl in Hin.
    destruct Hin as [<- | [<- | [<- | [<- | []]]]]; ranges; lia.
  - intros Hc.
    assert (in_range 0x0400 0x04FF c = true
            \/ (in_range 0x3040 0x309F c || in_range 0x30A0 0x30FF c) = true
            \/ (in_range 0x3131 0xD79D c || in_range 0xAC00 0xD7AF c) = true)
      as [X | [X | X]] by (ranges; lia).
    + exists (in_range 0x0400 0x04FF). split; [simpl; tauto | exact X].
    + eexists. split; [right; left; reflexivity | exact X].
    + eexists. split; [left; reflexivity | exact X].
Qed.

Lemma isLikelyEnglish_false_iff (text : jsstring) :
  isLikelyEnglish text = false <->
  exists c, In c text /\ flagged_unit c = true.
Proof.
  unfold isLikelyEnglish. destruct text as [|c0 r0].
  - simpl. split; [discriminate | intros [c [[] _]]].
  - simpl negb. cbv iota. rewrite scan_scripts_false. split.
    + intros [cls [c [Hcls [Hc Hr]]]]. exists c. split; [exact Hc|].
      apply nonEnglishScripts_flag. eauto.
    + intros [c [Hc Hf]]. apply nonEnglishScripts_flag in Hf as [cls [? ?]].
      exists cls, c. auto.
Qed.

(** The parts of the documented behaviour that do hold: a text with a
    Hangul syllable is rejected, an ASCII text is accepted. *)
Lemma isLikelyEnglish_hangul_syllable (text : jsstring) c :
  In c text -> in_range 0xAC00 0xD7A3 c = true ->
  isLikelyEnglish text = false.
Proof.
  intros Hc Hr. apply isLikelyEnglish_false_iff. exists c.
  split; [exact Hc|]. ranges. lia.
Qed.

Lemma isLikelyEnglish_ascii (text : jsstring) :
  (forall c, In c text -> (c < 128)%N) -> isLikelyEnglish text = true.
Proof.
  intros Hascii. destruct (isLikelyEnglish text) eqn:E; [reflexivity|].
  apply isLikelyEnglish_false_iff in E as [c [Hc Hr]].
  specialize (Hascii c Hc). ranges. lia.
Qed.

(** C4: on the one-unit title U+A722 (a Latin letter of the block Latin
    Extended-D) the heuristic answers [false], although the unit belongs to
    none of the scripts it is documented to look for; the culprit is the
    upper bound U+D79D of the first class, labelled Hangul in the source. *)
Theorem isLikelyEnglish_rejects_unlisted_script :
  isLikelyEnglish [0xA722%N] = false
  /\ listed_script_unit 0xA722%N = false
  /\ in_range 0x3131 0xD79D 0xA722 = true.
Proof. repeat split; reflexivity. Qed.

(** *** Response parser *)

Lemma match_title_none raw :
  match_title raw = None <-> find_ci title_label raw = None.
Proof.
  unfold match_title. destruct (find_ci title_label raw) as [[? ?]|];
    split; congruence.
Qed.

Lemma remove_title_line_absent raw :
  match_title raw = None -> remove_title_line raw = raw.
Proof.
  intros Hn. apply match_title_none in Hn.
  unfold remove_title_line. rewrite Hn. reflexivity.
Qed.

Lemma substring_prefix s n : substring s 0 n = firstn n s.
Proof.
  unfold substring. rewrite Nat.min_0_l, Nat.min_0_l, Nat.max_0_l, Nat.sub_0_r.
  simpl skipn. destruct (Nat.le_ge_cases n (length s)) as [Hn | Hn].
  - rewrite Nat.min_l by exact Hn. reflexivity.
  - rewrite Nat.min_r by exact Hn.
    rewrite !firstn_all2; auto.
Qed.

(** C5: whatever the fallback title, the two-line labelled answer parses
    into the title [Foo] and the description [Bar], without keywords; the
    title capture stops where the newline and the description label begin,
    the description capture runs to the end, and both are trimmed. *)
Theorem parse_labelled_answer (fallback : jsstring) :
  parseEnglishSEOResponse (Some labelled_answer) fallback
  = {| Seo.title := Some (lit "Foo");
       description := Some (lit "Bar");
       keywords := None |}
  /\ match_title labelled_answer = Some (lit " Foo")
  /\ match_description labelled_answer = Some (lit " Bar")
  /\ trim (lit " Foo") = lit "Foo"
  /\ trim (lit " Bar") = lit "Bar".
Proof. repeat split; reflexivity. Qed.




(** C7 as stated fails: an answer that carries only the description label
    has no title label, is not blank and leaves the title at the fallback,
    yet its description is the labelled [Bar], not the first 160 units of
    the answer. *)
Lemma fallback_not_taken_on_description_only :
  match_title description_only_answer = None
  /\ truthy (trim description_only_answer) = true
  /\ Seo.title (parseEnglishSEOResponse (Some description_only_answer) (lit "X"))
     = Some (lit "X")
  /\ description (parseEnglishSEOResponse (Some description_only_answer) (lit "X"))
     = Some (lit "Bar")
  /\ description (parseEnglishSEOResponse (Some description_only_answer) (lit "X"))
     <> Some (unquote
                (substring (trim (remove_title_line description_only_answer))
                   0 160)).
Proof. repeat split; try reflexivity. vm_compute. discriminate. Qed.

(** C7, amended: for a non-empty answer, when the description label gave
    no non-empty description, the title label is absent and the answer is
    not blank, the stripping pass leaves the answer as it is and the result
    keeps the fallback title with, as description, the first 160 units of
    the trimmed answer less one layer of enclosing quotes.  When the title
    label is present the description comes from the description label or
    is absent, and a successfully parsed title is always the one
    returned. *)
Theorem fallback_heuristic (raw fallback : jsstring) :
  truthy raw = true ->
  (match_title raw = None ->
   captured (match_description raw) = false ->
   truthy (trim raw) = true ->
   remove_title_line raw = raw
   /\ parseEnglishSEOResponse (Some raw) fallback
      = {| Seo.title := Some fallback;
           description := Some (unquote (substring (trim raw) 0 160));
           keywords := None |})
  /\ (match_title raw <> None ->
      description (parseEnglishSEOResponse (Some raw) fallback)
      = if captured (match_description raw)
        then Some (unquote (trim (group1 (match_description raw))))
        else None)
  /\ (captured (match_title raw) = true ->
      Seo.title (parseEnglishSEOResponse (Some raw) fallback)
      = Some (unquote (trim (group1 (match_title raw))))).
Proof.
  intros Hraw. unfold parseEnglishSEOResponse. rewrite Hraw.
  simpl negb. cbv iota. repeat split.
  - apply remove_title_line_absent. assumption.
  - rewrite (remove_title_line_absent raw) by assumption.
    match goal with
    | Ht : match_title raw = None, Hd : captured _ = false,
      Hn : truthy (trim raw) = true |- _ => rewrite Ht, Hd, Hn
    end.
    simpl. rewrite str_eqb_refl. reflexivity.
  - intros Ht. simpl.
    destruct (captured (match_description raw)); [reflexivity|].
    destruct (match_title raw); [reflexivity | congruence].
  - intros Hc. simpl. rewrite Hc. reflexivity.
Qed.

(** A quoted answer without labels: the fallback sets the description and
    removes the quotes. *)
Lemma fallback_heuristic_witness :
  parseEnglishSEOResponse (Some quoted_answer) (lit "X")
  = {| Seo.title := Some (lit "X");
       description := Some (lit "An answer without labels");
       keywords := None |}.
Proof.
  apply (proj1 (fallback_heuristic quoted_answer (lit "X") eq_refl));
    reflexivity.
Defined.

(** *** Orchestration *)

(** The function behind its two gates.  The [||] of each destructuring
    default is evaluated only when the property is [undefined], where it
    yields the default. *)
Lemma markdownToSEO_unfold pipeline title content config :
  markdownToSEO pipeline title content config
  = if negb (isLikelyEnglish title) then Ret None
    else if (wordCount content <? configured_min config)%Z then Ret None
    else try_catch
           (attempt pipeline (configured_model config) title
              (contentExcerpt content (configured_max config)))
           (fun _ => Ret None).
Proof.
  unfold markdownToSEO, configured_model, configured_min, configured_max.
  destruct config as [[name|] [lo|] [hi|]]; reflexivity.
Qed.

Lemma wordCount_nonneg content : (0 <= wordCount content)%Z.
Proof. unfold wordCount. lia. Qed.

(** C2: content with fewer whitespace-separated words than the threshold
    in force (the configured one, 50 when none is configured) is skipped
    whatever the title, and a title that is not likely English is skipped
    whatever the content. *)
Theorem markdownToSEO_gates pipeline (title content : jsstring) config :
  (wordCount content < configured_min config)%Z
  \/ isLikelyEnglish title = false ->
  markdownToSEO pipeline title content config = Ret None.
Proof.
  intros Hgate. rewrite markdownToSEO_unfold.
  destruct (isLikelyEnglish title); [|reflexivity]. simpl.
  destruct Hgate as [Hshort | Hforeign]; [|discriminate].
  apply Z.ltb_lt in Hshort. rewrite Hshort. reflexivity.
Qed.

(** The short note of the test script, with a collaborator that would
    have answered. *)
Lemma markdownToSEO_gates_witness :
  markdownToSEO (canned_pipeline labelled_answer)
    (lit "Short Note") short_note test_config
  = Ret None.
Proof.
  apply markdownToSEO_gates. left. vm_compute. reflexivity.
Defined.

Lemma try_catch_absorbs {A} (body : outcome (option A)) :
  exists result, try_catch body (fun _ => Ret None) = Ret result.
Proof. destruct body; eexists; reflexivity. Qed.

Lemma markdownToSEO_returns
    pipeline (title content : jsstring) config :
  exists result, markdownToSEO pipeline title content config = Ret result.
Proof.
  rewrite markdownToSEO_unfold.
  destruct (negb (isLikelyEnglish title)); [eexists; reflexivity|].
  destruct (wordCount content <? configured_min config)%Z;
    [eexists; reflexivity|].
  apply try_catch_absorbs.
Qed.

(** C3: [markdownToSEO] always returns: no behaviour of the collaborator
    makes it throw.  A record is returned only when the model loaded, the
    generator returned, and a non-empty text could be read off its answer,
    and it is then the full parse of that text; in every other case
    (load failure, invocation failure, failure while reading the answer,
    no text, empty text) the result is the skipped one. *)
Theorem markdownToSEO_never_throws pipeline (title content : jsstring) config :
  (exists result, markdownToSEO pipeline title content config = Ret result)
  /\ (forall seo,
        markdownToSEO pipeline title content config = Ret (Some seo) ->
        exists generator outputs text,
          pipeline (lit "text2text-generation") (configured_model config)
          = Ret generator
          /\ generator
               (constructEnglishSEOPrompt title
                  (contentExcerpt content (configured_max config)))
               15%Z 120%Z
             = Ret outputs
          /\ extract_text outputs = Ret (Some text)
          /\ truthy text = true
          /\ seo = parseEnglishSEOResponse (Some text) title).
Proof.
  rewrite markdownToSEO_unfold.
  destruct (negb (isLikelyEnglish title)).
  { split; [eexists; reflexivity | discriminate]. }
  destruct (wordCount content <? configured_min config)%Z.
  { split; [eexists; reflexivity | discriminate]. }
  unfold try_catch, attempt, mbind, outcome_bind, bind.
  destruct (pipeline _ _) as [generator|e].
  2:{ split; [eexists; reflexivity | discriminate]. }
  destruct (generator _ _ _) as [outputs|e] eqn:Hcall.
  2:{ split; [eexists; reflexivity | discriminate]. }
  destruct (extract_text outputs) as [[text|]|e] eqn:Hread.
  2,3: split; [eexists; reflexivity | discriminate].
  destruct (truthy text) eqn:Htext.
  2:{ split; [eexists; reflexivity | discriminate]. }
  split; [eexists; reflexivity|].
  intros seo Hseo. injection Hseo as <-.
  exists generator, outputs, text. auto.
Qed.

(** A collaborator that answers: the record is the parse of its text. *)
Lemma markdownToSEO_never_throws_witness :
  exists generator outputs text,
    canned_pipeline labelled_answer (lit "text2text-generation")
      (configured_model no_minimum)
    = Ret generator
    /\ generator
         (constructEnglishSEOPrompt (lit "Short Note")
            (contentExcerpt short_note (configured_max no_minimum)))
         15%Z 120%Z
       = Ret outputs
    /\ extract_text outputs = Ret (Some text)
    /\ truthy text = true
    /\ {| Seo.title := Some (lit "Foo");
          description := Some (lit "Bar");
          keywords := None |}
       = parseEnglishSEOResponse (Some text) (lit "Short Note").
Proof.
  apply (proj2 (markdownToSEO_never_throws (canned_pipeline labelled_answer)
                  (lit "Short Note") short_note no_minimum)).
  vm_compute. reflexivity.
Defined.

(** C10 as stated fails: with a configured minimum of 0 the short note is
    not skipped, and with the minimum omitted it is. *)
Lemma zero_minimum_is_not_the_default :
  markdownToSEO (canned_pipeline labelled_answer)
    (lit "Short Note") short_note no_minimum
  = Ret (Some {| Seo.title := Some (lit "Foo");
                 description := Some (lit "Bar");
                 keywords := None |})
  /\ markdownToSEO (canned_pipeline labelled_answer)
       (lit "Short Note") short_note no_settings
     = Ret None.
Proof. split; vm_compute; reflexivity. Qed.

(** C10, amended: only an omitted setting is replaced by its default.  An
    omitted minimum behaves as 50 and an omitted maximum as 250; a
    configured value is used as it is, 0 included: with a minimum of 0 no
    content is skipped for its length, and with a maximum of 0 the excerpt
    handed to the prompt is empty. *)
Theorem defaults_only_when_omitted pipeline (title content : jsstring)
    (model : option jsstring) (lo hi : option Z) :
  markdownToSEO pipeline title content (mkLLMConfig model None hi)
  = markdownToSEO pipeline title content (mkLLMConfig model (Some 50%Z) hi)
  /\ markdownToSEO pipeline title content (mkLLMConfig model lo None)
     = markdownToSEO pipeline title content (mkLLMConfig model lo (Some 250%Z))
  /\ (isLikelyEnglish title = true ->
      markdownToSEO pipeline title content (mkLLMConfig model (Some 0%Z) hi)
      = try_catch
          (attempt pipeline (configured_model (mkLLMConfig model (Some 0%Z) hi))
             title
             (contentExcerpt content
                (configured_max (mkLLMConfig model (Some 0%Z) hi))))
          (fun _ => Ret None))
  /\ (isLikelyEnglish title = true ->
      (configured_min (mkLLMConfig model lo (Some 0%Z)) <= wordCount content)%Z ->
      markdownToSEO pipeline title content (mkLLMConfig model lo (Some 0%Z))
      = try_catch
          (attempt pipeline (configured_model (mkLLMConfig model lo (Some 0%Z)))
             title [])
          (fun _ => Ret None)).
Proof.
  rewrite !markdownToSEO_unfold. repeat split.
  - intros ->. simpl negb. cbv iota.
    replace (wordCount content <? _)%Z with false; [reflexivity|].
    symmetry. apply Z.ltb_ge. apply wordCount_nonneg.
  - intros -> Hlen. simpl negb. cbv iota.
    apply Z.ltb_ge in Hlen. rewrite Hlen. reflexivity.
Qed.

(** With the minimum set to 0 the short note reaches the model. *)
Lemma defaults_only_when_omitted_witness :
  markdownToSEO (canned_pipeline labelled_answer)
    (lit "Short Note") short_note no_minimum
  = Ret (Some {| Seo.title := Some (lit "Foo");
                 description := Some (lit "Bar");
                 keywords := None |}).
Proof.
  unfold no_minimum.
  rewrite (proj1 (proj2 (proj2
             (defaults_only_when_omitted (canned_pipeline labelled_answer)
                (lit "Short Note") short_note None (Some 0%Z) None)))
             eq_refl).
  reflexivity.
Defined.

End SeoFacts.

(** ** The note indexer *)

Module IndexFacts.

Lemma dom_index_from (nodes : list ProcessedNode)
    (m : gmap jsstring ProcessedNode) :
  dom (foldl (fun m node => <[fullPathSlug node := node]> m) m nodes)
  = dom m ∪ list_to_set (fullPathSlug <$> nodes).
Proof.
  revert m. induction nodes as [|node nodes IH]; intros m; simpl.
  - set_solver.
  - rewrite IH, dom_insert_L. set_solver.
Qed.

Lemma dom_indexByFullPathSlug (nodes : list ProcessedNode) :
  dom (indexByFullPathSlug nodes) = list_to_set (fullPathSlug <$> nodes).
Proof. unfold indexByFullPathSlug. rewrite dom_index_from. set_solver. Qed.

Lemma elem_of_simpleSlugTargets (m : gmap jsstring (gset jsstring))
    (x : jsstring) :
  x ∈ simpleSlugTargets m <-> exists k slugs, m !! k = Some slugs /\ x ∈ slugs.
Proof.
  unfold simpleSlugTargets. rewrite elem_of_union_list. split.
  - intros [slugs [Hin Hx]].
    apply list_elem_of_fmap in Hin as [[k slugs'] [-> Hk]].
    apply elem_of_map_to_list in Hk. eauto.
  - intros [k [slugs [Hk Hx]]]. exists slugs. split; [|exact Hx].
    apply list_elem_of_fmap. exists (k, slugs). split; [reflexivity|].
    apply elem_of_map_to_list. exact Hk.
Qed.

Lemma simpleSlugTargets_add (m : gmap jsstring (gset jsstring))
    (node : ProcessedNode) :
  simpleSlugTargets (addSimpleSlug m node)
  = simpleSlugTargets m ∪ {[fullPathSlug node]}.
Proof.
  apply set_eq. intros x.
  rewrite elem_of_union, elem_of_singleton, !elem_of_simpleSlugTargets.
  unfold addSimpleSlug.
  destruct (m !! simpleSlug node) as [old|] eqn:Hold; split.
  - intros [k [slugs [Hk Hx]]].
    destruct (decide (simpleSlug node = k)) as [<- | Hne].
    + rewrite lookup_insert_eq in Hk. injection Hk as <-.
      apply elem_of_union in Hx as [Hx | Hx].
      * left. eauto.
      * right. apply elem_of_singleton in Hx. exact Hx.
    + rewrite lookup_insert_ne in Hk by exact Hne. left. eauto.
  - intros [[k [slugs [Hk Hx]]] | ->].
    + destruct (decide (simpleSlug node = k)) as [<- | Hne].
      * exists (simpleSlug node), (old ∪ {[fullPathSlug node]}).
        rewrite lookup_insert_eq. split; [reflexivity|].
        rewrite Hold in Hk. injection Hk as <-. set_solver.
      * exists k, slugs. rewrite lookup_insert_ne by exact Hne. auto.
    + exists (simpleSlug node), (old ∪ {[fullPathSlug node]}).
      rewrite lookup_insert_eq. split; [reflexivity | set_solver].
  - intros [k [slugs [Hk Hx]]].
    destruct (decide (simpleSlug node = k)) as [<- | Hne].
    + rewrite lookup_insert_eq in Hk. injection Hk as <-.
      right. apply elem_of_singleton in Hx. exact Hx.
    + rewrite lookup_insert_ne in Hk by exact Hne. left. eauto.
  - intros [[k [slugs [Hk Hx]]] | ->].
    + destruct (decide (simpleSlug node = k)) as [<- | Hne].
      * rewrite Hold in Hk. discriminate.
      * exists k, slugs. rewrite lookup_insert_ne by exact Hne. auto.
    + exists (simpleSlug node), {[fullPathSlug node]}.
      rewrite lookup_insert_eq. split; [reflexivity | set_solver].
Qed.

Lemma simpleSlugTargets_from (nodes : list ProcessedNode)
    (m : gmap jsstring (gset jsstring)) :
  simpleSlugTargets (foldl addSimpleSlug m nodes)
  = simpleSlugTargets m ∪ list_to_set (fullPathSlug <$> nodes).
Proof.
  revert m. induction nodes as [|node nodes IH]; intros m; simpl.
  - set_solver.
  - rewrite IH, simpleSlugTargets_add. set_solver.
Qed.

Lemma simpleSlugTargets_index (nodes : list ProcessedNode) :
  simpleSlugTargets (indexBySimpleSlug nodes)
  = list_to_set (fullPathSlug <$> nodes).
Proof.
  unfold indexBySimpleSlug. rewrite simpleSlugTargets_from.
  assert (simpleSlugTargets ∅ = ∅) as ->; [|set_solver].
  unfold simpleSlugTargets. rewrite map_to_list_empty. reflexivity.
Qed.

(** Counting the distinct members of a list. *)
Lemma size_list_to_set_le (l : list jsstring) :
  size (list_to_set l : gset jsstring) <= length l.
Proof.
  induction l as [|x l IH].
  - rewrite list_to_set_nil, size_empty. simpl. lia.
  - rewrite list_to_set_cons. simpl length.
    destruct (decide (x ∈ l)) as [Hin | Hout].
    + assert ({[x]} ∪ list_to_set l = (list_to_set l : gset jsstring)) as ->
        by set_solver.
      lia.
    + rewrite size_union by set_solver. rewrite size_singleton. lia.
Qed.

Lemma size_list_to_set_full (l : list jsstring) :
  size (list_to_set l : gset jsstring) = length l <-> NoDup l.
Proof.
  split; [|apply size_list_to_set].
  induction l as [|x l IH]; [constructor|].
  rewrite list_to_set_cons. simpl length.
  intros Hsize. destruct (decide (x ∈ l)) as [Hin | Hout].
  - assert ({[x]} ∪ list_to_set l = (list_to_set l : gset jsstring)) as E
      by set_solver.
    rewrite E in Hsize. pose proof (size_list_to_set_le l). lia.
  - rewrite size_union in Hsize by set_solver.
    rewrite size_singleton in Hsize.
    apply NoDup_cons. split; [exact Hout|]. apply IH. lia.
Qed.

Section WithCaseMapping.
Context `{CaseMapping}.

(** The scan returns whenever the front-matter library does: nothing on
    the SEO path can abort it. *)
Lemma processFile_returns pipeline matter options file :
  (exists parsed, matter (rawContent file) = Ret parsed) ->
  exists node, processFile pipeline matter options file = Ret node.
Proof.
  intros [parsed Hparsed]. unfold processFile.
  rewrite Hparsed. unfold mbind, outcome_bind, bind.
  destruct (generateSeo options); [|eexists; reflexivity].
  destruct (SeoFacts.markdownToSEO_returns pipeline
              (strip_md (basename (normalize_separators (relativePath file))))
              parsed.1 (llmConfig options)) as [seo ->].
  eexists; reflexivity.
Qed.

Lemma scanAndProcessNotes_returns pipeline matter options files :
  (forall file, In file files ->
                exists parsed, matter (rawContent file) = Ret parsed) ->
  exists result,
    scanAndProcessNotes pipeline matter options files = Ret result.
Proof.
  intros Hmatter. unfold scanAndProcessNotes.
  assert (exists nodes, processFiles pipeline matter options files = Ret nodes)
    as [nodes ->].
  { induction files as [|file rest IH]; [eexists; reflexivity|].
    destruct (processFile_returns pipeline matter options file) as [node Hn].
    { apply Hmatter. left; reflexivity. }
    destruct IH as [nodes Hnodes].
    { intros f Hf. apply Hmatter. right; exact Hf. }
    simpl. rewrite Hn. unfold mbind, outcome_bind, bind in *.
    rewrite Hnodes. eexists; reflexivity. }
  eexists; reflexivity.
Qed.

End WithCaseMapping.

(** The collision scenario of the specification: both notes are filed
    under the simple slug [note]. *)
Example collision_scenario :
  notesMapBySimpleSlug (scanned collision_files) !! lit "note"
  = Some ({[lit "a/note"; lit "b/note"]} : gset jsstring).
Proof. vm_compute. reflexivity. Qed.

(** C1 as stated fails: two distinct files whose names differ in a space
    against an underscore get the same full-path slug, so the scan keeps
    two notes while the value-sets of the simple-slug map hold one
    full-path slug between them. *)
Lemma lookalike_names_share_a_slug :
  @scanAndProcessNotes ascii_case_mapping
    failing_pipeline plain_matter default_options lookalike_files
  = Ret (scanned lookalike_files)
  /\ length (allNotes (scanned lookalike_files)) = 2
  /\ size (simpleSlugTargets (notesMapBySimpleSlug (scanned lookalike_files)))
     = 1
  /\ size (simpleSlugTargets (notesMapBySimpleSlug (scanned lookalike_files)))
     <> length (allNotes (scanned lookalike_files)).
Proof.
  repeat split; try (vm_compute; reflexivity). vm_compute. discriminate.
Qed.

(** C1, amended: in every scan result each full-path slug found in a
    value-set of the simple-slug map is a key of the full-path map; the
    union of the value-sets is exactly the key set of the full-path map;
    it has at most as many members as there are notes, and exactly as many
    if and only if no two notes share a full-path slug. *)
Theorem scan_index_invariant `{CaseMapping}
    pipeline matter options files (result : ScanResult) :
  scanAndProcessNotes pipeline matter options files = Ret result ->
  (forall simple slugs full,
      notesMapBySimpleSlug result !! simple = Some slugs ->
      full ∈ slugs ->
      is_Some (notesMapByFullPathSlug result !! full))
  /\ simpleSlugTargets (notesMapBySimpleSlug result)
     = dom (notesMapByFullPathSlug result)
  /\ size (simpleSlugTargets (notesMapBySimpleSlug result))
     <= length (allNotes result)
  /\ (size (simpleSlugTargets (notesMapBySimpleSlug result))
      = length (allNotes result)
      <-> NoDup (fullPathSlug <$> allNotes result)).
Proof.
  unfold scanAndProcessNotes, mbind, outcome_bind, bind.
  destruct (processFiles pipeline matter options files) as [nodes|e];
    [|discriminate].
  intros Hr. injection Hr as <-. simpl.
  assert (Heq : simpleSlugTargets (indexBySimpleSlug nodes)
                = dom (indexByFullPathSlug nodes))
    by (rewrite simpleSlugTargets_index, dom_indexByFullPathSlug; reflexivity).
  split; [|split; [|split]].
  - intros simple slugs full Hsimple Hfull.
    apply elem_of_dom. rewrite <- Heq.
    apply elem_of_simpleSlugTargets. eauto.
  - exact Heq.
  - rewrite simpleSlugTargets_index.
    etransitivity; [apply size_list_to_set_le|].
    rewrite length_fmap. reflexivity.
  - rewrite simpleSlugTargets_index, <- (length_fmap fullPathSlug nodes).
    apply size_list_to_set_full.
Qed.

(** The collision scenario of the specification: [a/note.md] and
    [b/note.md]. *)
Lemma scan_index_invariant_witness :
  simpleSlugTargets (notesMapBySimpleSlug (scanned collision_files))
  = dom (notesMapByFullPathSlug (scanned collision_files)).
Proof.
  apply (scan_index_invariant (H := ascii_case_mapping)
           failing_pipeline plain_matter default_options collision_files).
  vm_compute. reflexivity.
Defined.

End IndexFacts.

(** ** Laws of the slug generator *)

Module SlugLaws.
Import JsFacts SlugFacts.

Lemma startsWith_app_stop (u v p : jsstring) c :
  (forall x, In x p -> x <> c) ->
  startsWith (u ++ c :: v) p = startsWith u p.
Proof.
  revert u. induction p as [|x p IH]; intros u Hp; [reflexivity|].
  destruct u as [|y u]; simpl.
  - destruct (N.eqb_spec x c) as [E|_]; [|reflexivity].
    exfalso. exact (Hp x (or_introl eq_refl) E).
  - rewrite IH; [reflexivity|]. intros z Hz. apply Hp. right; exact Hz.
Qed.

Lemma startsWith_self_app (p s : jsstring) : startsWith (p ++ s) p = true.
Proof.
  induction p as [|x p IH]; [reflexivity|].
  simpl. rewrite N.eqb_refl, IH. reflexivity.
Qed.

Lemma startsWith_length (s p : jsstring) :
  startsWith s p = true -> length p <= length s.
Proof.
  revert s. induction p as [|x p IH]; intros s Hs; simpl; [lia|].
  destruct s as [|y s]; simpl in *; [discriminate|].
  apply andb_true_iff in Hs as [_ Hs]. specialize (IH _ Hs). lia.
Qed.

Lemma startsWith_map (f : N -> N) (s p : jsstring) :
  (forall x y, In x p -> (x =? f y)%N = (x =? y)%N) ->
  startsWith (List.map f s) p = startsWith s p.
Proof.
  revert s. induction p as [|x p IH]; intros s Hf; [reflexivity|].
  destruct s as [|y s]; simpl; [reflexivity|].
  rewrite Hf by (left; reflexivity).
  rewrite IH; [reflexivity|]. intros a b Ha. apply Hf. right; exact Ha.
Qed.

(** *** The extension *)

Lemma strip_md_suffix (x : jsstring) : strip_md (x ++ lit ".md") = x.
Proof.
  unfold strip_md, endsWith. rewrite rev_app_distr, startsWith_self_app.
  rewrite length_app. simpl length.
  replace (length x + 3 - 3) with (length x + 0) by lia.
  rewrite firstn_app_2. simpl. apply app_nil_r.
Qed.

Lemma strip_md_normalize (x : jsstring) :
  strip_md (normalize_separators x) = normalize_separators (strip_md x).
Proof.
  unfold strip_md, endsWith, normalize_separators.
  rewrite <- map_rev, startsWith_map.
  - destruct (startsWith (rev x) (rev (lit ".md"))); [|reflexivity].
    rewrite length_map. apply firstn_map.
  - intros a b Ha.
    destruct (N.eqb_spec b backslash) as [-> | _]; [|reflexivity].
    simpl in Ha. destruct Ha as [<- | [<- | [<- | []]]]; reflexivity.
Qed.

Lemma strip_md_under_directory (dir name : jsstring) :
  strip_md (dir ++ slash :: name) = dir ++ slash :: strip_md name.
Proof.
  unfold strip_md, endsWith.
  rewrite rev_app_distr.
  change (rev (slash :: name)) with (rev name ++ [slash]).
  rewrite <- app_assoc.
  change ([slash] ++ rev dir) with (slash :: rev dir).
  rewrite startsWith_app_stop.
  2:{ intros a Ha. simpl in Ha.
      destruct Ha as [<- | [<- | [<- | []]]]; discriminate. }
  destruct (startsWith (rev name) (rev (lit ".md"))) eqn:E; [|reflexivity].
  apply startsWith_length in E. rewrite !length_rev in E.
  change (length (lit ".md")) with 3 in E.
  rewrite length_app.
  change (length (slash :: name)) with (S (length name)).
  replace (length dir + S (length name) - 3)
    with (length dir + S (length name - 3)) by lia.
  rewrite firstn_app_2. reflexivity.
Qed.

(** *** Segments *)

Lemma split_app_sep sep (a b : jsstring) :
  split sep (a ++ sep :: b) = split sep a ++ split sep b.
Proof.
  induction a as [|c r IH]; simpl.
  - rewrite N.eqb_refl. reflexivity.
  - destruct (c =? sep)%N; [rewrite IH; reflexivity|].
    rewrite IH. destruct (split sep r) as [|seg segs] eqn:E.
    + exfalso. exact (split_nonempty _ _ E).
    + reflexivity.
Qed.

Lemma join_nonempty_first sep (seg : jsstring) rest :
  seg <> [] -> join sep (seg :: rest) <> [].
Proof.
  intros Hseg. destruct rest; simpl; [exact Hseg|].
  destruct seg; [congruence | discriminate].
Qed.

Lemma join_app_nonempty sep (l1 l2 : list jsstring) :
  l1 <> [] -> l2 <> [] ->
  join sep (l1 ++ l2) = join sep l1 ++ sep ++ join sep l2.
Proof.
  intros H1 H2. induction l1 as [|seg rest IH]; [congruence|].
  destruct rest as [|seg' rest'].
  - simpl app. rewrite join_cons by exact H2. reflexivity.
  - change ((seg :: seg' :: rest') ++ l2) with (seg :: ((seg' :: rest') ++ l2)).
    rewrite join_cons by discriminate. rewrite IH by discriminate.
    rewrite (join_cons sep seg (seg' :: rest')) by discriminate.
    rewrite <- !app_assoc. reflexivity.
Qed.

Lemma join_app_glue (l1 l2 : list jsstring) :
  (forall seg, In seg (l1 ++ l2) -> seg <> []) ->
  join [slash] (l1 ++ l2)
  = join [slash] (List.filter truthy [join [slash] l1; join [slash] l2]).
Proof.
  intros Hne.
  assert (Hglue : forall a b : jsstring,
             join [slash] (List.filter truthy [a; b])
             = match a, b with
               | [], _ => b
               | _, [] => a
               | _, _ => a ++ [slash] ++ b
               end)
    by (intros [|? ?] [|? ?]; reflexivity).
  rewrite Hglue.
  destruct l1 as [|s1 r1]; [reflexivity|].
  destruct l2 as [|s2 r2].
  { rewrite app_nil_r. destruct (join [slash] (s1 :: r1)); reflexivity. }
  rewrite join_app_nonempty by discriminate.
  pose proof (join_nonempty_first [slash] s1 r1
                (Hne s1 (or_introl eq_refl))) as H1.
  assert (H2 : join [slash] (s2 :: r2) <> []).
  { apply join_nonempty_first, Hne. apply in_app_iff. right; left; reflexivity. }
  destruct (join [slash] (s1 :: r1)); [congruence|].
  destruct (join [slash] (s2 :: r2)); [congruence|]. reflexivity.
Qed.

Section WithCaseMapping.
Context `{CaseMapping}.

Lemma slug_segment_empty : slug_segment [] = [].
Proof.
  unfold slug_segment. change (trim []) with (@nil N).
  rewrite toLowerCase_plain by reflexivity. reflexivity.
Qed.

Lemma slug_of_segments_empty : slug_of_segments [] = [].
Proof.
  unfold slug_of_segments. simpl. rewrite slug_segment_empty. reflexivity.
Qed.

Lemma filenameToSlug_by_segments (x : jsstring) :
  filenameToSlug x = slug_of_segments (strip_md x).
Proof.
  destruct x as [|c r]; [symmetry; apply slug_of_segments_empty|].
  reflexivity.
Qed.

Lemma slug_of_segments_normalize (x : jsstring) :
  slug_of_segments (normalize_separators x) = slug_of_segments x.
Proof.
  unfold slug_of_segments. do 4 f_equal.
  unfold normalize_separators. rewrite List.map_map.
  apply List.map_ext. intros c.
  destruct (c =? backslash)%N eqn:E; [reflexivity | rewrite E; reflexivity].
Qed.

Lemma slug_of_segments_under_directory (dir name : jsstring) :
  slug_of_segments (dir ++ slash :: name)
  = join [slash]
      (List.filter truthy [slug_of_segments dir; slug_of_segments name]).
Proof.
  unfold slug_of_segments, normalize_separators.
  rewrite List.map_app. simpl List.map at 1.
  change (if (slash =? backslash)%N then slash else slash) with slash.
  rewrite split_app_sep, List.map_app, List.filter_app.
  apply join_app_glue.
  intros seg Hseg. rewrite <- List.filter_app in Hseg.
  apply List.filter_In in Hseg as [_ Hlen].
  intros ->. discriminate.
Qed.

(** X1: a path written with backslashes and the same path written with
    forward slashes have the same slug. *)
Theorem filenameToSlug_separators (x : jsstring) :
  filenameToSlug (normalize_separators x) = filenameToSlug x.
Proof.
  rewrite !filenameToSlug_by_segments, strip_md_normalize.
  apply slug_of_segments_normalize.
Qed.

(** X2: appending [.md] to a name that does not already end in [.md]
    leaves its slug unchanged: the extension is stripped, once, from the
    end of the input. *)
Theorem filenameToSlug_extension (x : jsstring) :
  endsWith x (lit ".md") = false ->
  filenameToSlug (x ++ lit ".md") = filenameToSlug x.
Proof.
  intros Hx. rewrite !filenameToSlug_by_segments, strip_md_suffix.
  unfold strip_md. rewrite Hx. reflexivity.
Qed.

(** X3: the slug of a path is built from the slugs of its two halves: for
    a directory part that does not itself end in [.md], the slug of
    [dir/name] is the slug of [dir] and the slug of [name] joined by one
    [/], an empty half being left out together with the separator. *)
Theorem filenameToSlug_under_directory (dir name : jsstring) :
  endsWith dir (lit ".md") = false ->
  filenameToSlug (dir ++ slash :: name)
  = join [slash]
      (List.filter truthy [filenameToSlug dir; filenameToSlug name]).
Proof.
  intros Hdir.
  rewrite !filenameToSlug_by_segments, strip_md_under_directory.
  rewrite slug_of_segments_under_directory.
  unfold strip_md at 2. rewrite Hdir. reflexivity.
Qed.

(** X4: a slug is safe to put in a URL path: each of its units is a
    lowercase Latin letter, a digit, a Hangul syllable, a hyphen or the
    separator [/], and no segment between separators is empty, so it
    neither starts nor ends with [/] nor contains two in a row. *)
Theorem filenameToSlug_alphabet (x : jsstring) :
  (forall c, In c (filenameToSlug x) -> slug_unit c = true \/ c = slash)
  /\ (filenameToSlug x <> [] ->
      forall segment, In segment (split slash (filenameToSlug x)) ->
                      segment <> []).
Proof.
  pose proof (filenameToSlug_is_slug x) as Hslug.
  unfold is_slug in Hslug.
  destruct (filenameToSlug x) as [|c0 r0] eqn:E.
  { split; [intros c [] | congruence]. }
  rewrite <- E in *. clear E.
  assert (Hsegs : forall seg, In seg (split slash (filenameToSlug x)) ->
                              is_slug_segment seg = true)
    by (apply forallb_forall; exact Hslug).
  split.
  - intros c Hc. rewrite <- (join_split slash (filenameToSlug x)) in Hc.
    apply in_join in Hc as [[<- | []] | [seg [Hseg Hc]]]; [right; reflexivity|].
    left. specialize (Hsegs seg Hseg). unfold is_slug_segment in Hsegs.
    repeat (apply andb_true_iff in Hsegs as [Hsegs ?]).
    eapply forallb_forall; eauto.
  - intros _ seg Hseg. specialize (Hsegs seg Hseg).
    unfold is_slug_segment in Hsegs.
    repeat (apply andb_true_iff in Hsegs as [Hsegs ?]).
    destruct seg; [discriminate | discriminate].
Qed.

End WithCaseMapping.

Lemma filenameToSlug_extension_witness :
  @filenameToSlug ascii_case_mapping (lit "My Post" ++ lit ".md")
  = @filenameToSlug ascii_case_mapping (lit "My Post").
Proof.
  apply (@filenameToSlug_extension ascii_case_mapping). reflexivity.
Defined.

Lemma filenameToSlug_under_directory_witness :
  @filenameToSlug ascii_case_mapping (lit "My Folder" ++ slash :: lit "A_B.md")
  = join [slash]
      (List.filter truthy
         [@filenameToSlug ascii_case_mapping (lit "My Folder");
          @filenameToSlug ascii_case_mapping (lit "A_B.md")]).
Proof.
  apply (@filenameToSlug_under_directory ascii_case_mapping). reflexivity.
Defined.

Lemma filenameToSlug_alphabet_witness :
  slug_unit 109 = true \/ 109%N = slash.
Proof.
  apply (proj1 (@filenameToSlug_alphabet ascii_case_mapping
                  (lit "My Folder/A_B.md")) 109%N).
  vm_compute. left; reflexivity.
Defined.

End SlugLaws.

(** ** Laws of the SEO generator *)

Module SeoLaws.
Import JsFacts SlugFacts SeoFacts.

(** *** Language heuristic *)

(** X5: the heuristic answers [false] exactly when some code unit of the
    text lies in U+0400..U+04FF, U+3040..U+30FF or U+3131..U+D7AF; the
    empty text is accepted. *)
Theorem isLikelyEnglish_intervals (text : jsstring) :
  isLikelyEnglish text = false <->
  exists c, In c text
            /\ ((0x0400 <= c <= 0x04FF) \/ (0x3040 <= c <= 0x30FF)
                \/ (0x3131 <= c <= 0xD7AF))%N.
Proof.
  rewrite isLikelyEnglish_false_iff.
  split; intros [c [Hc Hr]]; exists c; (split; [exact Hc|]);
    ranges; lia.
Qed.

(** X6: one hit anywhere decides: a concatenation is accepted exactly when
    both parts are. *)
Theorem isLikelyEnglish_app (a b : jsstring) :
  isLikelyEnglish (a ++ b) = isLikelyEnglish a && isLikelyEnglish b.
Proof.
  destruct (isLikelyEnglish a) eqn:Ea, (isLikelyEnglish b) eqn:Eb; simpl.
  - destruct (isLikelyEnglish (a ++ b)) eqn:E; [reflexivity|].
    apply isLikelyEnglish_false_iff in E as [c [Hc Hf]].
    apply in_app_iff in Hc as [Hc | Hc].
    + assert (isLikelyEnglish a = false)
        by (apply isLikelyEnglish_false_iff; eauto).
      congruence.
    + assert (isLikelyEnglish b = false)
        by (apply isLikelyEnglish_false_iff; eauto).
      congruence.
  - apply isLikelyEnglish_false_iff in Eb as [c [Hc Hf]].
    apply isLikelyEnglish_false_iff. exists c.
    split; [apply in_app_iff; right; exact Hc | exact Hf].
  - apply isLikelyEnglish_false_iff in Ea as [c [Hc Hf]].
    apply isLikelyEnglish_false_iff. exists c.
    split; [apply in_app_iff; left; exact Hc | exact Hf].
  - apply isLikelyEnglish_false_iff in Ea as [c [Hc Hf]].
    apply isLikelyEnglish_false_iff. exists c.
    split; [apply in_app_iff; left; exact Hc | exact Hf].
Qed.

(** *** Prompt builder *)

Lemma drop_while_app_all p (w s : jsstring) :
  forallb p w = true -> drop_while p (w ++ s) = drop_while p s.
Proof.
  induction w as [|c w IH]; simpl; [reflexivity|].
  intros Hw. apply andb_true_iff in Hw as [-> Hw]. apply IH, Hw.
Qed.

Lemma trim_framed (w1 body w2 : jsstring) :
  forallb is_ws w1 = true -> forallb is_ws w2 = true ->
  match body with c :: _ => is_ws c = false | [] => False end ->
  match rev body with c :: _ => is_ws c = false | [] => False end ->
  trim (w1 ++ body ++ w2) = body.
Proof.
  intros H1 H2 Hfirst Hlast. unfold trim.
  rewrite drop_while_app_all by exact H1.
  rewrite (drop_while_fixed is_ws (body ++ w2)).
  2:{ destruct body; [destruct Hfirst | exact Hfirst]. }
  unfold drop_while_end. rewrite rev_app_distr.
  rewrite drop_while_app_all.
  2:{ apply forallb_forall. intros c Hc. apply in_rev in Hc.
      revert c Hc. apply forallb_forall. exact H2. }
  rewrite (drop_while_fixed is_ws (rev body)).
  - apply rev_involutive.
  - destruct (rev body); [destruct Hlast | exact Hlast].
Qed.

(** X7: the prompt is the fixed template with the title and the excerpt
    spliced in verbatim; the final [trim] removes the template's outer
    newlines and nothing of the title or the excerpt, whatever they
    contain. *)
Theorem constructEnglishSEOPrompt_template (originalTitle excerpt : jsstring) :
  constructEnglishSEOPrompt originalTitle excerpt
  = prompt_head ++ originalTitle ++ prompt_middle ++ excerpt ++ prompt_tail
  /\ length (constructEnglishSEOPrompt originalTitle excerpt)
     = 545 + length originalTitle + length excerpt.
Proof.
  assert (E : constructEnglishSEOPrompt originalTitle excerpt
              = prompt_head ++ originalTitle ++ prompt_middle
                ++ excerpt ++ prompt_tail).
  { unfold constructEnglishSEOPrompt.
    transitivity
      (trim (nl ++ (prompt_head ++ originalTitle ++ prompt_middle
                    ++ excerpt ++ prompt_tail) ++ nl)).
    - f_equal. unfold prompt_head, prompt_middle, prompt_tail.
      rewrite <- !app_assoc. reflexivity.
    - apply trim_framed; try reflexivity.
      rewrite !rev_app_distr. reflexivity. }
  split; [exact E|].
  rewrite E, !length_app.
  change (length prompt_head) with 93.
  change (length prompt_middle) with 20.
  change (length prompt_tail) with 432. lia.
Qed.

(** *** Searching for a label *)

Lemma ci_eqb_refl c : ci_eqb c c = true.
Proof. apply N.eqb_refl. Qed.

Lemma ci_prefix_self (pat s : jsstring) : ci_prefix pat (pat ++ s) = true.
Proof.
  induction pat as [|p pat IH]; [reflexivity|].
  simpl. rewrite ci_eqb_refl, IH. reflexivity.
Qed.

Lemma find_ci_here (pat s : jsstring) :
  ci_prefix pat s = true -> find_ci pat s = Some ([], skipn (length pat) s).
Proof. intros Hp. destruct s; simpl; rewrite Hp; reflexivity. Qed.

Lemma find_ci_self (pat s : jsstring) :
  find_ci pat (pat ++ s) = Some ([], s).
Proof.
  rewrite find_ci_here by apply ci_prefix_self.
  rewrite skipn_app, Nat.sub_diag, skipn_all. reflexivity.
Qed.

Lemma find_ci_later (pat : jsstring) c r :
  ci_prefix pat (c :: r) = false ->
  find_ci pat (c :: r) = carry [c] (find_ci pat r).
Proof.
  intros Hp. simpl find_ci. rewrite Hp.
  destruct (find_ci pat r) as [[? ?]|]; reflexivity.
Qed.

Lemma carry_carry a b found : carry a (carry b found) = carry (a ++ b) found.
Proof. destruct found as [[? ?]|]; simpl; rewrite <- ?app_assoc; reflexivity. Qed.

(** No match can start on a unit that differs from the first unit of the
    pattern. *)
Lemma find_ci_past (p : N) (pat a b : jsstring) :
  (forall c, In c a -> ci_eqb c p = false) ->
  find_ci (p :: pat) (a ++ b) = carry a (find_ci (p :: pat) b).
Proof.
  induction a as [|c a IH]; intros Ha.
  - change ([] ++ b) with b.
    destruct (find_ci (p :: pat) b) as [[? ?]|]; reflexivity.
  - change ((c :: a) ++ b) with (c :: (a ++ b)).
    rewrite find_ci_later.
    + rewrite IH by (intros x Hx; apply Ha; right; exact Hx).
      rewrite carry_carry. reflexivity.
    + simpl. rewrite (Ha c (or_introl eq_refl)). reflexivity.
Qed.

(** A unit that matches no unit of the pattern is a barrier: no match
    runs across it. *)
Lemma ci_prefix_barrier (pat u v : jsstring) c :
  (forall p, In p pat -> ci_eqb c p = false) ->
  ci_prefix pat (u ++ c :: v) = ci_prefix pat u.
Proof.
  revert u. induction pat as [|p pat IH]; intros u Hc; [reflexivity|].
  destruct u as [|x u]; simpl.
  - rewrite (Hc p (or_introl eq_refl)). reflexivity.
  - rewrite IH; [reflexivity|]. intros q Hq. apply Hc. right; exact Hq.
Qed.

Lemma find_ci_none_inv (pat : jsstring) c r :
  find_ci pat (c :: r) = None ->
  ci_prefix pat (c :: r) = false /\ find_ci pat r = None.
Proof.
  simpl find_ci. destruct (ci_prefix pat (c :: r)); [discriminate|].
  destruct (find_ci pat r) as [[? ?]|]; [discriminate|]. auto.
Qed.

Lemma find_ci_barrier (p : N) (pat t rest : jsstring) c :
  find_ci (p :: pat) t = None ->
  (forall q, In q (p :: pat) -> ci_eqb c q = false) ->
  find_ci (p :: pat) (t ++ c :: rest)
  = carry (t ++ [c]) (find_ci (p :: pat) rest).
Proof.
  intros Ht Hc. induction t as [|x t IH].
  - simpl app. rewrite find_ci_later; [reflexivity|].
    simpl. rewrite (Hc p (or_introl eq_refl)). reflexivity.
  - apply find_ci_none_inv in Ht as [Hx Ht].
    change ((x :: t) ++ c :: rest) with (x :: (t ++ c :: rest)).
    rewrite find_ci_later.
    + rewrite (IH Ht), carry_carry. reflexivity.
    + change (x :: (t ++ c :: rest)) with ((x :: t) ++ c :: rest).
      rewrite ci_prefix_barrier by exact Hc. exact Hx.
Qed.

Lemma find_ci_empty_text (p : N) (pat : jsstring) : find_ci (p :: pat) [] = None.
Proof. reflexivity. Qed.

Lemma ci_eqb_newline c : ci_eqb c 10 = true -> c = 10%N.
Proof.
  unfold ci_eqb, upper_ascii. simpl.
  destruct ((97 <=? c) && (c <=? 122))%N eqn:E; intros Hc;
    apply N.eqb_eq in Hc; [|exact Hc].
  apply andb_true_iff in E as [E1 E2].
  apply N.leb_le in E1, E2. lia.
Qed.

Lemma newline_matches_no_letter (q : N) :
  In q description_label -> ci_eqb 10 q = false.
Proof.
  intros Hq. vm_compute in Hq.
  repeat (destruct Hq as [<- | Hq]; [reflexivity|]). destruct Hq.
Qed.

Lemma title_label_has_no_m (c : N) :
  In c title_label -> ci_eqb c 77 = false.
Proof.
  intros Hc. vm_compute in Hc.
  repeat (destruct Hc as [<- | Hc]; [reflexivity|]). destruct Hc.
Qed.

Lemma truthy_trim (s : jsstring) : truthy (trim s) = true -> truthy s = true.
Proof. destruct s; [discriminate | reflexivity]. Qed.

Lemma captured_some (g : jsstring) : captured (Some g) = truthy (trim g).
Proof.
  simpl. destruct (truthy (trim g)) eqn:E; [|apply andb_false_r].
  rewrite (truthy_trim _ E). reflexivity.
Qed.

(** *** Response parser *)

(** X8: an answer in the requested format is taken apart again.  When the
    title part is on one line and does not itself contain the description
    label, the parser returns the trimmed, unquoted title part (the
    fallback if it is blank) and the trimmed, unquoted description part
    (none if it is blank), whatever the description part contains. *)
Theorem parse_formatted_answer (seoTitle seoDescription fallback : jsstring) :
  (forall c, In c seoTitle -> c <> 10%N) ->
  find_ci description_label seoTitle = None ->
  parseEnglishSEOResponse
    (Some (formatted_answer seoTitle seoDescription)) fallback
  = {| Seo.title :=
         Some (if truthy (trim seoTitle) then unquote (trim seoTitle)
               else fallback);
       description :=
         if truthy (trim seoDescription)
         then Some (unquote (trim seoDescription))
         else None;
       keywords := None |}.
Proof.
  intros Hline Hlabel.
  assert (Ht : match_title (formatted_answer seoTitle seoDescription)
               = Some seoTitle).
  { unfold match_title, formatted_answer. rewrite find_ci_self.
    change (nl ++ description_label) with (10%N :: description_label).
    change (seoTitle ++ nl ++ description_label ++ seoDescription)
      with (seoTitle ++ (10%N :: description_label) ++ seoDescription).
    rewrite find_ci_past, find_ci_self.
    - simpl. rewrite app_nil_r. reflexivity.
    - intros c Hc. destruct (ci_eqb c 10) eqn:E; [|reflexivity].
      apply ci_eqb_newline in E. exfalso. exact (Hline c Hc E). }
  assert (Hd : match_description (formatted_answer seoTitle seoDescription)
               = Some seoDescription).
  { unfold match_description, formatted_answer.
    change description_label with (77%N :: List.tl description_label).
    rewrite find_ci_past by apply title_label_has_no_m.
    change (seoTitle ++ nl ++ ?x) with (seoTitle ++ 10%N :: x).
    rewrite find_ci_barrier.
    - rewrite find_ci_self. reflexivity.
    - exact Hlabel.
    - apply newline_matches_no_letter. }
  unfold parseEnglishSEOResponse.
  change (truthy (formatted_answer seoTitle seoDescription)) with true.
  simpl negb. cbv iota. rewrite Ht, Hd, !captured_some. simpl group1.
  simpl is_Some_b. simpl negb. simpl andb.
  destruct (truthy (trim seoTitle)), (truthy (trim seoDescription));
    reflexivity.
Qed.

Lemma parse_formatted_answer_witness :
  parseEnglishSEOResponse
    (Some (formatted_answer (lit " A Better Title")
             (lit " What the post is about.")))
    (lit "X")
  = {| Seo.title := Some (lit "A Better Title");
       description := Some (lit "What the post is about.");
       keywords := None |}.
Proof.
  apply (parse_formatted_answer (lit " A Better Title")
           (lit " What the post is about.") (lit "X")).
  - intros c Hc. vm_compute in Hc.
    repeat (destruct Hc as [<- | Hc]; [discriminate|]). destruct Hc.
  - reflexivity.
Defined.

Lemma trim_empty_all_ws (s : jsstring) :
  trim s = [] -> forallb is_ws s = true.
Proof.
  unfold trim. intros Ht.
  destruct (drop_while_split is_ws s) as [a [Ea Fa]].
  destruct (drop_while_end_split is_ws (drop_while is_ws s)) as [b [Eb Fb]].
  rewrite Ht in Eb. simpl in Eb. rewrite Eb in Ea.
  rewrite Ea, forallb_app, Fa, Fb. reflexivity.
Qed.

Lemma ws_is_no_letter (c p : N) :
  is_ws c = true -> (65 <= p <= 90)%N -> ci_eqb c p = false.
Proof.
  intros Hc Hp. unfold ci_eqb.
  assert (upper_ascii p = p) as ->.
  { unfold upper_ascii.
    destruct (N.leb_spec 97 p); [lia | reflexivity]. }
  unfold upper_ascii, is_ws in *. units_in;
    (destruct ((97 <=? c) && (c <=? 122))%N eqn:E;
     [ apply andb_true_iff in E as [E1 E2]; apply N.leb_le in E1, E2; lia
     | apply N.eqb_neq; lia ]).
Qed.

Lemma blank_has_no_label (p : N) (pat raw : jsstring) :
  (65 <= p <= 90)%N -> forallb is_ws raw = true ->
  find_ci (p :: pat) raw = None.
Proof.
  intros Hp Hraw. rewrite <- (app_nil_r raw), find_ci_past; [reflexivity|].
  intros c Hc. apply ws_is_no_letter; [|exact Hp].
  revert c Hc. apply forallb_forall. exact Hraw.
Qed.

(** X9: an answer that is absent, empty or made of whitespace only gives
    the fallback title and no description. *)
Theorem parse_blank_answer (fallback : jsstring) :
  parseEnglishSEOResponse None fallback
  = {| Seo.title := Some fallback; description := None; keywords := None |}
  /\ forall raw,
       trim raw = [] ->
       parseEnglishSEOResponse (Some raw) fallback
       = {| Seo.title := Some fallback;
            description := None;
            keywords := None |}.
Proof.
  split; [reflexivity|]. intros raw Hblank.
  pose proof (trim_empty_all_ws raw Hblank) as Hws.
  unfold parseEnglishSEOResponse.
  destruct (negb (truthy raw)); [reflexivity|].
  unfold match_title, match_description.
  change title_label with (83%N :: List.tl title_label).
  change description_label with (77%N :: List.tl description_label).
  rewrite !blank_has_no_label by (try exact Hws; lia).
  simpl. rewrite Hblank. reflexivity.
Qed.

Lemma parse_blank_answer_witness :
  parseEnglishSEOResponse (Some (lit "   ")) (lit "X")
  = {| Seo.title := Some (lit "X"); description := None; keywords := None |}.
Proof.
  apply (proj2 (parse_blank_answer (lit "X")) (lit "   ")). reflexivity.
Defined.

Lemma substring_length (s : jsstring) a b : length (substring s a b) <= length s.
Proof.
  unfold substring. rewrite length_firstn, length_skipn. lia.
Qed.

Lemma unquote_length (s : jsstring) : length (unquote s) <= length s.
Proof.
  unfold unquote. destruct (startsWith s dq && endsWith s dq); [|lia].
  apply substring_length.
Qed.

(** X10: a description that does not come from the description label is
    never longer than 160 units. *)
Theorem fallback_description_bounded (raw fallback d : jsstring) :
  captured (match_description raw) = false ->
  description (parseEnglishSEOResponse (Some raw) fallback) = Some d ->
  length d <= 160.
Proof.
  intros Hnone. unfold parseEnglishSEOResponse.
  destruct (negb (truthy raw)); [discriminate|].
  rewrite Hnone. simpl.
  destruct (negb (is_Some_b (match_title raw)) && truthy (trim raw));
    [|discriminate].
  destruct (truthy (trim (remove_title_line raw))); [|discriminate].
  destruct (str_eqb _ fallback); [|discriminate].
  intros Hd. injection Hd as <-.
  etransitivity; [apply unquote_length|].
  rewrite substring_prefix, length_firstn. lia.
Qed.

Lemma fallback_description_bounded_witness :
  length (lit "Just some unlabeled text.") <= 160.
Proof.
  apply (fallback_description_bounded (lit "Just some unlabeled text.")
           (lit "X")); reflexivity.
Defined.

(** *** Orchestration *)

(** X11: text is extracted from exactly two answer shapes: an object whose
    [generated_text] is a string, and a list whose first element is such
    an object (the other elements are never read). *)
Theorem extract_text_shapes (outputs : value) (text : jsstring) :
  extract_text outputs = Ret (Some text) <->
  outputs = VObj (Ret (VStr text))
  \/ exists others, outputs = VArr (VObj (Ret (VStr text)) :: others).
Proof.
  split.
  - unfold extract_text, get_generated_text, mbind, outcome_bind, bind.
    intros Hx.
    destruct outputs as [| | | | |g|items]; try discriminate.
    + destruct g as [[]|]; try discriminate.
      injection Hx as <-. left; reflexivity.
    + destruct items as [|first others]; [discriminate|].
      destruct first as [| | | | |g|inner]; try discriminate.
      destruct g as [[]|]; try discriminate.
      injection Hx as <-. right. eexists; reflexivity.
  - intros [-> | [others ->]]; reflexivity.
Qed.

(** X12: once both gates are passed, a collaborator that loads, returns,
    and yields a non-empty text makes [markdownToSEO] return the parse of
    that text; the model is asked for under the configured name (the
    default when none is configured), with the prompt built from the title
    and the excerpt, and with the bounds 15 and 120. *)
Theorem markdownToSEO_success pipeline (title content : jsstring) config
    (generator : Seo.generator) (outputs : value) (text : jsstring) :
  isLikelyEnglish title = true ->
  (configured_min config <= wordCount content)%Z ->
  pipeline (lit "text2text-generation") (configured_model config)
  = Ret generator ->
  generator
    (constructEnglishSEOPrompt title
       (contentExcerpt content (configured_max config)))
    15%Z 120%Z
  = Ret outputs ->
  extract_text outputs = Ret (Some text) ->
  truthy text = true ->
  markdownToSEO pipeline title content config
  = Ret (Some (parseEnglishSEOResponse (Some text) title)).
Proof.
  intros Henglish Hlong Hload Hcall Hread Htext.
  rewrite markdownToSEO_unfold, Henglish. simpl negb. cbv iota.
  apply Z.ltb_ge in Hlong. rewrite Hlong.
  unfold try_catch, attempt, mbind, outcome_bind, bind.
  rewrite Hload, Hcall, Hread, Htext. reflexivity.
Qed.

Lemma markdownToSEO_success_witness :
  markdownToSEO (canned_pipeline labelled_answer)
    (lit "Short Note") short_note no_minimum
  = Ret (Some (parseEnglishSEOResponse (Some labelled_answer)
                 (lit "Short Note"))).
Proof.
  eapply markdownToSEO_success; try reflexivity.
  vm_compute. discriminate.
Defined.

(** *** Words and excerpt *)

Lemma split_ws_go_token (t : jsstring) :
  (forall c, In c t -> is_ws c = false) ->
  forall inrun cur s,
    split_ws_go inrun cur (t ++ s)
    = split_ws_go (match t with [] => inrun | _ :: _ => false end)
        (rev t ++ cur) s.
Proof.
  induction t as [|c t IH]; intros Ht inrun cur s; [reflexivity|].
  simpl app. simpl split_ws_go at 1.
  rewrite (Ht c (or_introl eq_refl)).
  rewrite IH by (intros x Hx; apply Ht; right; exact Hx).
  simpl rev. rewrite <- app_assoc. simpl app.
  destruct t; reflexivity.
Qed.

Lemma split_ws_go_ws_free (s : jsstring) :
  forall inrun cur tok,
    (forall c, In c cur -> is_ws c = false) ->
    In tok (split_ws_go inrun cur s) ->
    forall c, In c tok -> is_ws c = false.
Proof.
  induction s as [|x s IH]; intros inrun cur tok Hcur Htok c Hc.
  - simpl in Htok. destruct Htok as [<- | []].
    apply Hcur, in_rev. exact Hc.
  - simpl in Htok. destruct (is_ws x) eqn:Ex.
    + destruct inrun.
      * eapply (IH true []); eauto. intros ? [].
      * destruct Htok as [<- | Htok].
        -- apply Hcur, in_rev. exact Hc.
        -- eapply (IH true []); eauto. intros ? [].
    + eapply (IH false (x :: cur)); eauto.
      intros y [<- | Hy]; [exact Ex | apply Hcur, Hy].
Qed.

Lemma words_of_joined (toks : list jsstring) :
  (forall tok, In tok toks -> forall c, In c tok -> is_ws c = false) ->
  forall inrun,
    List.filter truthy (split_ws_go inrun [] (join [32%N] toks))
    = List.filter truthy toks.
Proof.
  induction toks as [|t rest IH]; intros Hfree inrun; [reflexivity|].
  assert (Ht : forall c, In c t -> is_ws c = false)
    by (apply Hfree; left; reflexivity).
  assert (Hrest : forall tok, In tok rest ->
                              forall c, In c tok -> is_ws c = false)
    by (intros tok Htok; apply Hfree; right; exact Htok).
  destruct rest as [|t2 rest'].
  - simpl join. rewrite <- (app_nil_r t) at 1.
    rewrite split_ws_go_token by exact Ht.
    simpl split_ws_go. rewrite app_nil_r, rev_involutive. reflexivity.
  - rewrite join_cons by discriminate.
    change ([32%N] ++ join [32%N] (t2 :: rest'))
      with (32%N :: join [32%N] (t2 :: rest')).
    rewrite split_ws_go_token by exact Ht.
    simpl split_ws_go. rewrite app_nil_r, rev_involutive.
    destruct t as [|c t'].
    + destruct inrun; simpl List.filter; apply IH; exact Hrest.
    + simpl List.filter. f_equal. apply IH. exact Hrest.
Qed.

Lemma filter_firstn {A} (f : A -> bool) (l : list A) k :
  exists k', k' <= k
             /\ List.filter f (firstn k l) = firstn k' (List.filter f l).
Proof.
  revert k. induction l as [|a l IH]; intros k.
  - exists 0. rewrite firstn_nil. split; [lia | reflexivity].
  - destruct k as [|k]; [exists 0; split; [lia | reflexivity]|].
    destruct (IH k) as [k' [Hk E]]. simpl. destruct (f a).
    + exists (S k'). split; [lia|]. simpl. rewrite E. reflexivity.
    + exists k'. split; [lia | exact E].
Qed.

Lemma slice0_firstn {A} (l : list A) (e : Z) :
  exists k, slice0 l e = firstn k l /\ (0 <= e -> Z.of_nat k <= e)%Z.
Proof.
  unfold slice0. destruct (e <? 0)%Z eqn:E.
  - eexists. split; [reflexivity|]. apply Z.ltb_lt in E. lia.
  - eexists. split; [reflexivity|]. lia.
Qed.

(** X13: the words of the excerpt are the first words of the content: the
    excerpt's word list is a prefix of the content's word list, so it has
    no more words than the content and, for a non-negative maximum, no
    more than the maximum. *)
Theorem contentExcerpt_words (content : jsstring) (max : Z) :
  (exists k, words (contentExcerpt content max) = firstn k (words content)
             /\ (0 <= max -> Z.of_nat k <= max)%Z)
  /\ (wordCount (contentExcerpt content max) <= wordCount content)%Z
  /\ (0 <= max -> wordCount (contentExcerpt content max) <= max)%Z.
Proof.
  assert (Hk : exists k,
             words (contentExcerpt content max) = firstn k (words content)
             /\ (0 <= max -> Z.of_nat k <= max)%Z).
  { unfold words, contentExcerpt, split_ws at 1.
    destruct (slice0_firstn (split_ws content) max) as [k [-> Hmax]].
    rewrite words_of_joined.
    - destruct (filter_firstn truthy (split_ws content) k) as [k' [Hk' ->]].
      exists k'. split; [reflexivity | lia].
    - intros tok Htok c Hc.
      assert (In tok (split_ws content)) as Hin.
      { rewrite <- (firstn_skipn k (split_ws content)).
        apply in_app_iff. left; exact Htok. }
      apply (split_ws_go_ws_free content false [] tok); auto. intros ? []. }
  split; [exact Hk|].
  destruct Hk as [k [E Hmax]].
  change (wordCount (contentExcerpt content max))
    with (Z.of_nat (length (words (contentExcerpt content max)))).
  change (wordCount content) with (Z.of_nat (length (words content))).
  rewrite E, length_firstn. split; [lia|]. intros Hpos.
  specialize (Hmax Hpos). lia.
Qed.

Lemma contentExcerpt_words_witness :
  (wordCount (contentExcerpt short_note 5) <= 5)%Z.
Proof.
  apply (proj2 (proj2 (contentExcerpt_words short_note 5))). lia.
Defined.

End SeoLaws.

(** ** The test script *)

Module TestFacts.
Import SeoFacts.

Lemma gate_closed pipeline (title content : jsstring) config :
  (wordCount content < configured_min config)%Z
  \/ isLikelyEnglish title = false ->
  markdownToSEO pipeline title content config = Ret None.
Proof.
  intros Hgate. rewrite markdownToSEO_unfold.
  destruct (isLikelyEnglish title); [|reflexivity]. simpl.
  destruct Hgate as [Hshort | Hforeign]; [|discriminate].
  apply Z.ltb_lt in Hshort. rewrite Hshort. reflexivity.
Qed.

Lemma runCase_skipped pipeline (tc : TestCase) :
  markdownToSEO pipeline (case_title tc) (case_content tc) defaultConfig
  = Ret None ->
  expectedToProcess tc = false ->
  statusMessage (runCase pipeline tc) = SkippedAsExpected
  /\ wasProcessedByLLM (runCase pipeline tc) = false
  /\ error (runCase pipeline tc) = None.
Proof. intros Hrun Hexp. unfold runCase. rewrite Hrun, Hexp. auto. Qed.

Lemma runCase_processed pipeline (tc : TestCase) :
  expectedToProcess tc = true ->
  (statusMessage (runCase pipeline tc) = ProcessedAsExpected
   \/ statusMessage (runCase pipeline tc) = ExpectedProcessButSkipped)
  /\ error (runCase pipeline tc) = None.
Proof.
  intros Hexp. unfold runCase.
  destruct (markdownToSEO_returns pipeline (case_title tc) (case_content tc)
              defaultConfig) as [[seo|] ->]; rewrite Hexp; simpl; auto.
Qed.

Ltac settle_processed :=
  match goal with
  | |- context [runCase ?p ?tc] =>
      destruct (runCase_processed p tc eq_refl) as [Hs He];
      split; [exact He|]; split; [exact Hs|];
      split; [reflexivity | vm_compute; discriminate]
  end.

Ltac settle_skipped :=
  match goal with
  | |- context [runCase ?p ?tc] =>
      assert (Hg : markdownToSEO p (case_title tc) (case_content tc)
                     defaultConfig = Ret None)
        by (apply gate_closed;
            first [left; vm_compute; reflexivity | right; reflexivity]);
      destruct (runCase_skipped p tc Hg eq_refl) as [Hs [Hw He]];
      split; [exact He|]; split; [exact Hs | exact Hw]
  end.

(** X14: whatever the collaborator does, the test script records each of
    its five cases under its own title and none with an exception; the two
    cases expected to be skipped are recorded as skipped as expected, and a
    case expected to be processed passes both gates, so that it is recorded
    either as processed as expected or as unexpectedly skipped, the model
    deciding. *)
Theorem runTest_verdicts pipeline (tc : TestCase) :
  In tc testCases ->
  runTest pipeline !! case_title tc = Some (runCase pipeline tc)
  /\ error (runCase pipeline tc) = None
  /\ (if expectedToProcess tc
      then (statusMessage (runCase pipeline tc) = ProcessedAsExpected
            \/ statusMessage (runCase pipeline tc) = ExpectedProcessButSkipped)
           /\ isLikelyEnglish (case_title tc) = true
           /\ (configured_min defaultConfig <= wordCount (case_content tc))%Z
      else statusMessage (runCase pipeline tc) = SkippedAsExpected
           /\ wasProcessedByLLM (runCase pipeline tc) = false).
Proof.
  intros Hin.
  assert (Hlookup : runTest pipeline !! case_title tc
                    = Some (runCase pipeline tc)).
  { unfold runTest, testCases in *. simpl foldl. simpl in Hin.
    destruct Hin as [<- | [<- | [<- | [<- | [<- | []]]]]];
      cbn [case_title];
      repeat (rewrite lookup_insert_ne by (intros E; vm_compute in E; discriminate));
      apply lookup_insert_eq. }
  split; [exact Hlookup|].
  unfold testCases in Hin. simpl in Hin.
  destruct Hin as [<- | [<- | [<- | [<- | [<- | []]]]]]; cbn [expectedToProcess];
    first [settle_processed | settle_skipped].
Qed.

(** The case with the Korean title, under a collaborator that cannot load
    its model. *)
Lemma runTest_verdicts_witness :
  statusMessage
    (runCase failing_pipeline (nth 4 testCases (mkCase [] [] true)))
  = SkippedAsExpected.
Proof.
  pose proof (runTest_verdicts failing_pipeline
                (nth 4 testCases (mkCase [] [] true))
                ltac:(do 4 right; left; reflexivity)) as [_ [_ Hverdict]].
  exact (proj1 Hverdict).
Defined.

End TestFacts.
